(** * Tic-Tac-Toe with AI: board queries, tactical scan and minimax search

    A shallow embedding of [Tic_tac_toe_withAI/code/tic_tac_toe_game.cpp].

    The C++ program keeps one [char board[SIZE][SIZE]] and hands it by
    reference to every function; the strategies write trial marks into it and
    erase them again.  Every function that writes the array is therefore
    modelled in state-passing style: it receives the board and returns the
    board it leaves behind next to its result.

    [int] values stay between -1000 and 1000, so they are plain [Z] without
    wrap-around.  [char] cells are [ascii]: a board may hold any character,
    not only the three the game writes. *)

From Stdlib Require Import String.
From Stdlib Require Import ZArith List Ascii Bool Lia Permutation Sorted.
Import ListNotations.
Local Open Scope Z_scope.

(** ** Constants *)

Definition SIZE : Z := 3.
Definition PLAYER : ascii := "X"%char.
Definition AI : ascii := "O"%char.
Definition BLANK : ascii := " "%char.

(** ** The board: [char board[SIZE][SIZE]] *)

Record Row : Type := mkRow { col0 : ascii; col1 : ascii; col2 : ascii }.
Record Board : Type := mkBoard { row0 : Row; row1 : Row; row2 : Row }.

Definition inBounds (r c : Z) : bool :=
  (0 <=? r) && (r <? SIZE) && (0 <=? c) && (c <? SIZE).

(** [board[r][c]] as an rvalue.  The loops of the program only ever index
    with [0 <= r, c < SIZE]; outside the array the model reads a NUL
    character, which is no mark and not the blank either. *)
Definition getCol (w : Row) (c : Z) : ascii :=
  match c with
  | 0 => col0 w
  | 1 => col1 w
  | 2 => col2 w
  | _ => zero
  end.

Definition get (b : Board) (r c : Z) : ascii :=
  match r with
  | 0 => getCol (row0 b) c
  | 1 => getCol (row1 b) c
  | 2 => getCol (row2 b) c
  | _ => zero
  end.

Definition setCol (w : Row) (c : Z) (x : ascii) : Row :=
  match c with
  | 0 => mkRow x (col1 w) (col2 w)
  | 1 => mkRow (col0 w) x (col2 w)
  | 2 => mkRow (col0 w) (col1 w) x
  | _ => w
  end.

(** [board[r][c] = x] inside a loop whose bounds keep the index in range. *)
Definition set (b : Board) (r c : Z) (x : ascii) : Board :=
  match r with
  | 0 => mkBoard (setCol (row0 b) c x) (row1 b) (row2 b)
  | 1 => mkBoard (row0 b) (setCol (row1 b) c x) (row2 b)
  | 2 => mkBoard (row0 b) (row1 b) (setCol (row2 b) c x)
  | _ => b
  end.

(** Outcome of a computation that can go wrong in two ways: the write
    [board[r][c] = x] with a computed index falls outside the array
    ([Fault]: undefined behaviour in C++), or the model's recursion or loop
    budget is used up ([OutOfFuel]). *)
Inductive result (A : Type) : Type :=
| Ok (a : A)
| Fault
| OutOfFuel.
Arguments Ok {A} a.
Arguments Fault {A}.
Arguments OutOfFuel {A}.

(** [board[r][c] = x] with an index that is not known to be in range. *)
Definition store (b : Board) (r c : Z) (x : ascii) : result Board :=
  if inBounds r c then Ok (set b r c x) else Fault.

(** [for (int r = 0; r < SIZE; r++)] visits these indices in this order. *)
Definition range : list Z := [0; 1; 2].

(** The nested loop [for r ... for c ...] visits the cells in row-major
    order. *)
Definition cells : list (Z * Z) :=
  Eval cbv in flat_map (fun r => map (fun c => (r, c)) range) range.

Definition emptyBoard : Board :=
  mkBoard (mkRow BLANK BLANK BLANK) (mkRow BLANK BLANK BLANK)
          (mkRow BLANK BLANK BLANK).

(** The test [board[r][c] == ' '] on a cell. *)
Definition blankAt (b : Board) (rc : Z * Z) : bool :=
  Ascii.eqb (get b (fst rc) (snd rc)) BLANK.

(** Number of blank cells: the measure of the search. *)
Definition emptyCount (b : Board) : nat :=
  length (filter (blankAt b) cells).

(** ** checkWinner *)

Definition rowWins (b : Board) (r : Z) : bool :=
  negb (Ascii.eqb (get b r 0) BLANK)
  && Ascii.eqb (get b r 0) (get b r 1)
  && Ascii.eqb (get b r 1) (get b r 2).

Definition colWins (b : Board) (c : Z) : bool :=
  negb (Ascii.eqb (get b 0 c) BLANK)
  && Ascii.eqb (get b 0 c) (get b 1 c)
  && Ascii.eqb (get b 1 c) (get b 2 c).

Definition diagWins (b : Board) : bool :=
  negb (Ascii.eqb (get b 0 0) BLANK)
  && Ascii.eqb (get b 0 0) (get b 1 1)
  && Ascii.eqb (get b 1 1) (get b 2 2).

Definition antiWins (b : Board) : bool :=
  negb (Ascii.eqb (get b 0 2) BLANK)
  && Ascii.eqb (get b 0 2) (get b 1 1)
  && Ascii.eqb (get b 1 1) (get b 2 0).

Definition checkWinner (b : Board) : ascii :=
  match find (rowWins b) range with
  | Some r => get b r 0
  | None =>
    match find (colWins b) range with
    | Some c => get b 0 c
    | None =>
      if diagWins b then get b 0 0
      else if antiWins b then get b 0 2
      else BLANK
    end
  end.

(** ** isDraw *)

Definition isDraw (b : Board) : bool :=
  negb (existsb (fun r => existsb (fun c => Ascii.eqb (get b r c) BLANK) range)
                range).

(** ** tryWinningMove

    The reference parameters [r], [c] are written only on success, so the
    result is the pair on success and [None] for [false]. *)

Fixpoint tryCells (cs : list (Z * Z)) (b : Board) (symbol : ascii)
  : option (Z * Z) * Board :=
  match cs with
  | [] => (None, b)
  | (i, j) :: cs' =>
    if Ascii.eqb (get b i j) BLANK then
      let b1 := set b i j symbol in
      if Ascii.eqb (checkWinner b1) symbol
      then (Some (i, j), set b1 i j BLANK)
      else tryCells cs' (set b1 i j BLANK) symbol
    else tryCells cs' b symbol
  end.

Definition tryWinningMove (b : Board) (symbol : ascii)
  : option (Z * Z) * Board :=
  tryCells cells b symbol.

(** ** evaluate *)

Definition evaluate (b : Board) : Z :=
  let winner := checkWinner b in
  if Ascii.eqb winner AI then 10
  else if Ascii.eqb winner PLAYER then -10
  else 0.

(** ** minimax

    One unit of fuel is spent per nesting level of the recursion.  The loop
    body of each branch is [scan]: the mark placed and the way two scores
    are combined are the only differences between the two branches. *)

Fixpoint scan (rec : Board -> result (Z * Board)) (mark : ascii)
         (pick : Z -> Z -> Z) (cs : list (Z * Z)) (best : Z) (b : Board)
  : result (Z * Board) :=
  match cs with
  | [] => Ok (best, b)
  | (r, c) :: cs' =>
    if Ascii.eqb (get b r c) BLANK then
      match rec (set b r c mark) with
      | Ok (v, b1) => scan rec mark pick cs' (pick best v) (set b1 r c BLANK)
      | Fault => Fault
      | OutOfFuel => OutOfFuel
      end
    else scan rec mark pick cs' best b
  end.

Fixpoint minimax_fuel (fuel : nat) (b : Board) (isMaximizing : bool)
  : result (Z * Board) :=
  match fuel with
  | O => OutOfFuel
  | S fuel' =>
    let score := evaluate b in
    if (score =? 10) || (score =? -10) || isDraw b then Ok (score, b)
    else if isMaximizing then
      scan (fun b' => minimax_fuel fuel' b' false) AI Z.max cells (-1000) b
    else
      scan (fun b' => minimax_fuel fuel' b' true) PLAYER Z.min cells 1000 b
  end.

(** A call from outside the recursion: one level per blank cell and one for
    the terminal board at the bottom. *)
Definition minimax (b : Board) (isMaximizing : bool) : result (Z * Board) :=
  minimax_fuel (S (emptyCount b)) b isMaximizing.

(** ** makeHardAIMove *)

Record Best : Type := mkBest { bestVal : Z; bestRow : Z; bestCol : Z }.

Fixpoint searchCells (cs : list (Z * Z)) (best : Best) (b : Board)
  : result (Best * Board) :=
  match cs with
  | [] => Ok (best, b)
  | (r, c) :: cs' =>
    if Ascii.eqb (get b r c) BLANK then
      match minimax (set b r c AI) false with
      | Ok (moveVal, b1) =>
        let b2 := set b1 r c BLANK in
        if moveVal >? bestVal best
        then searchCells cs' (mkBest moveVal r c) b2
        else searchCells cs' best b2
      | Fault => Fault
      | OutOfFuel => OutOfFuel
      end
    else searchCells cs' best b
  end.

(** The two nested loops of [makeHardAIMove], up to but not including the
    final assignment. *)
Definition hardSearch (b : Board) : result (Best * Board) :=
  searchCells cells (mkBest (-1000) (-1) (-1)) b.

Definition makeHardAIMove (b : Board) : result Board :=
  match hardSearch b with
  | Ok (best, b1) => store b1 (bestRow best) (bestCol best) AI
  | Fault => Fault
  | OutOfFuel => OutOfFuel
  end.

(** ** makeEasyAIMove

    [rand()] returns a non-negative [int]; the values it will return are
    the list [draws], consumed two per iteration of the [do ... while]
    loop.  The loop has no bound of its own: when the draws run out before
    a blank cell is hit the model answers [OutOfFuel]. *)

Fixpoint makeEasyAIMove (b : Board) (draws : list nat)
  : result (Board * list nat) :=
  match draws with
  | x :: y :: rest =>
    let r := Z.rem (Z.of_nat x) SIZE in
    let c := Z.rem (Z.of_nat y) SIZE in
    if negb (Ascii.eqb (get b r c) BLANK)
    then makeEasyAIMove b rest
    else Ok (set b r c AI, rest)
  | _ => OutOfFuel
  end.

(** ** makeMediumAIMove *)

Definition makeMediumAIMove (b : Board) (draws : list nat)
  : result (Board * list nat) :=
  match tryWinningMove b AI with
  | (Some (r, c), b1) => Ok (set b1 r c AI, draws)
  | (None, b1) =>
    match tryWinningMove b1 PLAYER with
    | (Some (r, c), b2) => Ok (set b2 r c AI, draws)
    | (None, b2) => makeEasyAIMove b2 draws
    end
  end.

(** ** makeAIMove

    The [switch] has no [default]: any other difficulty leaves the board
    alone. *)

Definition makeAIMove (b : Board) (difficulty : Z) (draws : list nat)
  : result (Board * list nat) :=
  match difficulty with
  | 1 => makeEasyAIMove b draws
  | 2 => makeMediumAIMove b draws
  | 3 =>
    match makeHardAIMove b with
    | Ok b' => Ok (b', draws)
    | Fault => Fault
    | OutOfFuel => OutOfFuel
    end
  | _ => Ok (b, draws)
  end.

(** ** playGame

    The loop of [playGame] makes one move per iteration, for the human when
    [playerFirst] holds and for the program otherwise, leaves on
    [winner != ' ' || isDraw(board)] and flips [playerFirst] when it goes
    round again. *)

Definition gameOver (b : Board) : bool :=
  negb (Ascii.eqb (checkWinner b) BLANK) || isDraw b.

(** One iteration from a position on which the game goes on.  [playerMove]
    accepts any cell inside the board that is blank; the program's move is
    whatever [aiMove] allows. *)
Inductive ply (aiMove : Board -> Board -> Prop)
  : Board * bool -> Board * bool -> Prop :=
| ply_player (b : Board) (r c : Z) :
    gameOver b = false -> inBounds r c = true -> get b r c = BLANK ->
    ply aiMove (b, true) (set b r c PLAYER, false)
| ply_ai (b b' : Board) :
    gameOver b = false -> aiMove b b' ->
    ply aiMove (b, false) (b', true).

(** Positions that follow a position in zero or more iterations. *)
Inductive plays (aiMove : Board -> Board -> Prop)
  : Board * bool -> Board * bool -> Prop :=
| plays_here (s : Board * bool) : plays aiMove s s
| plays_on (s t u : Board * bool) :
    plays aiMove s t -> ply aiMove t u -> plays aiMove s u.

(** Positions of a match: reached from the empty board, whoever starts. *)
Definition reachable (aiMove : Board -> Board -> Prop) (s : Board * bool)
  : Prop :=
  exists first : bool, plays aiMove (emptyBoard, first) s.

(** The program's move on difficulty 3. *)
Definition hardMove (b b' : Board) : Prop := makeHardAIMove b = Ok b'.

(** Any legal move of the program: its mark on a blank cell. *)
Definition anyMove (b b' : Board) : Prop :=
  exists r c, inBounds r c = true /\ get b r c = BLANK /\ b' = set b r c AI.

(** ** Vocabulary of the statements *)

(** The score a call hands back, whatever board comes with it. *)
Definition scoreOf (x : result (Z * Board)) : Z :=
  match x with
  | Ok (v, _) => v
  | _ => 0
  end.

(** The scores the minimax levels can produce. *)
Definition gameScore (v : Z) : Prop := v = -10 \/ v = 0 \/ v = 10.

(** What a recursive call [rec] computes on the board with one trial
    mark. *)
Definition trial (rec : Board -> result (Z * Board)) (mark : ascii)
           (b : Board) (rc : Z * Z) : Z :=
  scoreOf (rec (set b (fst rc) (snd rc) mark)).

(** The boards on which the loop of [minimax] calls itself: one per blank
    cell, with the trial mark on it. *)
Definition trialBoards (b : Board) (mark : ascii) : list Board :=
  map (fun rc => set b (fst rc) (snd rc) mark) (filter (blankAt b) cells).

(** Score of the move to a cell: [moveVal] in the source. *)
Definition moveScore (b : Board) (rc : Z * Z) : Z :=
  scoreOf (minimax (set b (fst rc) (snd rc) AI) false).

(** The update [if (moveVal > bestVal) {...}]. *)
Definition better (b : Board) (best : Best) (rc : Z * Z) : Best :=
  if moveScore b rc >? bestVal best
  then mkBest (moveScore b rc) (fst rc) (snd rc)
  else best.

(** The same update for an arbitrary score function. *)
Definition keepBest (sc : Z * Z -> Z) (best : Best) (rc : Z * Z) : Best :=
  if sc rc >? bestVal best then mkBest (sc rc) (fst rc) (snd rc) else best.

(** Position of a cell in the row-major scan. *)
Definition rowMajor (rc : Z * Z) : Z := SIZE * fst rc + snd rc.

Definition scannedBefore (x y : Z * Z) : Prop := rowMajor x < rowMajor y.

(** A cell on which [symbol] wins at once: blank, and [checkWinner] answers
    [symbol] once the mark is there. *)
Definition winsAtb (b : Board) (symbol : ascii) (rc : Z * Z) : bool :=
  blankAt b rc
  && Ascii.eqb (checkWinner (set b (fst rc) (snd rc) symbol)) symbol.

Definition winsAt (b : Board) (symbol : ascii) (r c : Z) : Prop :=
  get b r c = BLANK /\ checkWinner (set b r c symbol) = symbol.

(** The first such cell of the row-major scan. *)
Definition firstWin (b : Board) (symbol : ascii) (r c : Z) : Prop :=
  winsAt b symbol r c /\
  forall r' c', winsAt b symbol r' c' -> rowMajor (r, c) <= rowMajor (r', c').

(** The three cells of a line. *)
Definition Line : Type := (Z * Z) * (Z * Z) * (Z * Z).

(** The test the source applies to a line: three equal characters that are
    not blank.  The answer is the winning mark. *)
Definition lineMark (b : Board) (l : Line) : option ascii :=
  let '(p, q, s) := l in
  let x := get b (fst p) (snd p) in
  let y := get b (fst q) (snd q) in
  let z := get b (fst s) (snd s) in
  if negb (Ascii.eqb x BLANK) && Ascii.eqb x y && Ascii.eqb y z
  then Some x else None.

(** The lines in the order [checkWinner] tests them: rows, columns, main
    diagonal, anti-diagonal. *)
Definition sourceOrder : list Line :=
  [ ((0, 0), (0, 1), (0, 2)); ((1, 0), (1, 1), (1, 2));
    ((2, 0), (2, 1), (2, 2));
    ((0, 0), (1, 0), (2, 0)); ((0, 1), (1, 1), (2, 1));
    ((0, 2), (1, 2), (2, 2));
    ((0, 0), (1, 1), (2, 2)); ((0, 2), (1, 1), (2, 0)) ].

(** [checkWinner] with the lines tested in an arbitrary order. *)
Fixpoint firstWinner (b : Board) (ls : list Line) : ascii :=
  match ls with
  | [] => BLANK
  | l :: ls' =>
    match lineMark b l with
    | Some x => x
    | None => firstWinner b ls'
    end
  end.

(** [mark] has a completed line of three. *)
Definition hasLine (b : Board) (mark : ascii) : Prop :=
  exists l, In l sourceOrder /\ lineMark b l = Some mark.

(** The mirrored board: the two marks exchanged, every other character
    kept. *)
Definition swapMark (x : ascii) : ascii :=
  if Ascii.eqb x PLAYER then AI
  else if Ascii.eqb x AI then PLAYER
  else x.

Definition mirrorRow (w : Row) : Row :=
  mkRow (swapMark (col0 w)) (swapMark (col1 w)) (swapMark (col2 w)).

Definition mirror (b : Board) : Board :=
  mkBoard (mirrorRow (row0 b)) (mirrorRow (row1 b)) (mirrorRow (row2 b)).

(** Exhaustive check of the matches of difficulty 3 from a position: the
    human has not won, and unless the game is over every reply of the human
    (respectively the move of [makeHardAIMove]) leads to a position that
    passes the check again. *)
Fixpoint hardSafe (n : nat) (b : Board) (playerToMove : bool) : bool :=
  match n with
  | O => false
  | S n' =>
    negb (Ascii.eqb (checkWinner b) PLAYER)
    && (gameOver b
        || if playerToMove
           then forallb (fun rc =>
                           negb (blankAt b rc)
                           || hardSafe n' (set b (fst rc) (snd rc) PLAYER)
                                       false)
                        cells
           else match makeHardAIMove b with
                | Ok b' => hardSafe n' b' true
                | _ => false
                end)
  end.

(** The marks with a completed line on a board of a match are all one
    mark. *)
Definition oneWinner (b : Board) : Prop :=
  exists m, forall l x, In l sourceOrder -> lineMark b l = Some x -> x = m.

(** ** Boards used as examples *)

(** [O O _ / X X _ / _ _ _]: the program can win at (0,2), the human at
    (1,2). *)
Definition winOrBlock : Board :=
  mkBoard (mkRow AI AI BLANK) (mkRow PLAYER PLAYER BLANK)
          (mkRow BLANK BLANK BLANK).

(** [X O X / O X O / X O X]: the last position of a match the human began
    and won with the ninth mark, on the centre. *)
Definition fullWon : Board :=
  mkBoard (mkRow PLAYER AI PLAYER) (mkRow AI PLAYER AI)
          (mkRow PLAYER AI PLAYER).

(** [X O X / X O O / O X X]: a full board without a line. *)
Definition fullDrawn : Board :=
  mkBoard (mkRow PLAYER AI PLAYER) (mkRow PLAYER AI AI)
          (mkRow AI PLAYER PLAYER).

(** [X X X / _ O O / _ _ _]: the top row is the human's. *)
Definition topRowWon : Board :=
  mkBoard (mkRow PLAYER PLAYER PLAYER) (mkRow BLANK AI AI)
          (mkRow BLANK BLANK BLANK).

(** [X X O / X O _ / O _ _]: the program, which moved second, has
    completed the anti-diagonal with its third mark. *)
Definition antiDiagonalWon : Board :=
  mkBoard (mkRow PLAYER PLAYER AI) (mkRow PLAYER AI BLANK)
          (mkRow AI BLANK BLANK).

(** [X O _ / X X _ / _ _ O]: the human, who began, threatens (1,2) and
    (2,0) at once. *)
Definition forked : Board :=
  mkBoard (mkRow PLAYER AI BLANK) (mkRow PLAYER PLAYER BLANK)
          (mkRow BLANK BLANK AI).

(** [X X _ / O _ _ / _ _ _]: the human threatens (0,2). *)
Definition blockMe : Board :=
  mkBoard (mkRow PLAYER PLAYER BLANK) (mkRow AI BLANK BLANK)
          (mkRow BLANK BLANK BLANK).

(** ** Console

    What the program writes to [cout], one constructor per piece of text. *)
Inductive Msg : Type :=
| AskFirst        (* "Do you want to play first? (y/n): " *)
| AskDifficulty   (* "Choose AI difficulty:" and its three menu lines *)
| InvalidChoice   (* "Invalid choice. Choose 1, 2, or 3: " *)
| YourMove        (* "Your move (e.g., A1, B3): " *)
| InvalidFormat   (* "Invalid format. Use A1-C3: " *)
| InvalidCell     (* "Invalid cell. Use A1-C3: " *)
| CellTaken       (* "Cell taken. Try again: " *)
| Thinking        (* "AI is thinking...\n" *)
| BoardText (text : string)   (* the text of [printBoard] *)
| YouWin          (* "You win!" *)
| AIWins          (* "AI wins!" *)
| ItsADraw.       (* "It's a draw!" *)

(** A computation that writes to the console: the text written, in order,
    and the outcome. *)
Definition Out (A : Type) : Type := list Msg * result A.

Definition ret {A : Type} (a : A) : Out A := ([], Ok a).

Definition say (m : Msg) : Out unit := ([m], Ok tt).

Definition lift {A : Type} (r : result A) : Out A := ([], r).

Definition bindOut {A B : Type} (x : Out A) (k : A -> Out B) : Out B :=
  match x with
  | (o, Ok a) => let (o', r) := k a in (o ++ o', r)
  | (o, Fault) => (o, Fault)
  | (o, OutOfFuel) => (o, OutOfFuel)
  end.

Notation "x <- c ;; k" := (bindOut c (fun x => k))
  (at level 61, c at next level, right associativity).
Notation "' p <- c ;; k" := (bindOut c (fun x => let 'p := x in k))
  (at level 61, p pattern, c at next level, right associativity).
Notation "c ;;; k" := (bindOut c (fun _ => k))
  (at level 61, right associativity).

(** ** printBoard *)

Definition newline : string := String (ascii_of_nat 10) EmptyString.

(** [char('A' + r)]. *)
Definition rowLabel (r : Z) : ascii := ascii_of_N (Z.to_N (65 + r)).

Definition printCell (b : Board) (r c : Z) : string :=
  String (get b r c) (if c <? SIZE - 1 then " | "%string else ""%string).

Definition printRow (b : Board) (r : Z) : string :=
  (String (rowLabel r) " | "
   ++ String.concat "" (map (printCell b r) range)
   ++ newline
   ++ (if (r <? SIZE - 1)%Z then "  |---|---|---" ++ newline else ""))%string.

Definition printBoard (b : Board) : string :=
  (newline ++ "    1   2   3" ++ newline
   ++ String.concat "" (map (printRow b) range)
   ++ newline)%string.

(** ** isPlayerFirst

    [cin >> choice] extracts one character. *)
Definition isPlayerFirst (choice : ascii) : Out bool :=
  say AskFirst ;;;
  ret (Ascii.eqb choice "y"%char || Ascii.eqb choice "Y"%char).

(** ** chooseDifficulty *)

(** What stands next in the input when [cin >> level] runs: a number, or
    something that does not begin a number. *)
Inductive Typed : Type :=
| Num (n : Z)
| NotNum.

(** The range of [int]. *)
Definition INT_MIN : Z := -2147483648.
Definition INT_MAX : Z := 2147483647.

(** The test [level >= 1 && level <= 3]. *)
Definition validLevel (level : Z) : bool := (level >=? 1) && (level <=? 3).

(** The loop once an extraction has failed.  The stream keeps its fail
    state, so every further [cin >> level] fails and leaves [level] alone:
    the loop ends if [level] passes the test as it is, and runs for ever
    otherwise. *)
Definition failedRead (level : Z) : Out (Z * list Typed * bool) :=
  if validLevel level then ret (level, [], false) else lift OutOfFuel.

(** The loop of [chooseDifficulty].  [level] is the content of the
    variable, which the program does not initialise: the first call
    receives whatever it holds.  [levels] is the input ahead.  A number
    that fits an [int] is extracted and tested.  A number that does not
    fit, something that is no number, and the end of the input make the
    extraction fail: the variable then holds the nearest bound, 0, or what
    it held before.  The result says whether the stream is still good. *)
Fixpoint readLevel (level : Z) (levels : list Typed)
  : Out (Z * list Typed * bool) :=
  match levels with
  | [] => failedRead level
  | Num n :: rest =>
    if (INT_MIN <=? n) && (n <=? INT_MAX) then
      if validLevel n then ret (n, rest, true)
      else say InvalidChoice ;;; readLevel n rest
    else failedRead (if n <? INT_MIN then INT_MIN else INT_MAX)
  | NotNum :: rest => failedRead 0
  end.

Definition chooseDifficulty (level : Z) (levels : list Typed)
  : Out (Z * list Typed * bool) :=
  say AskDifficulty ;;; readLevel level levels.

(** ** playerMove *)

(** A [char] promoted to [int].  The characters of cell names are ASCII;
    a character above 127 gives a row or column outside the board whether
    [char] is signed or not. *)
Definition code (c : ascii) : Z := Z.of_N (N_of_ascii c).

(** [toupper] and [isdigit] of the C locale. *)
Definition toupper (c : ascii) : ascii :=
  if (code "a"%char <=? code c) && (code c <=? code "z"%char)
  then ascii_of_N (N_of_ascii c - 32)
  else c.

Definition isdigit (c : ascii) : bool :=
  (code "0"%char <=? code c) && (code c <=? code "9"%char).

(** The row and column computed from a token of two characters. *)
Definition cellOf (c0 c1 : ascii) : Z * Z :=
  let rChar := toupper c0 in
  let cChar := c1 in
  let '(rChar, cChar) :=
    if isdigit rChar then (cChar, rChar) else (rChar, cChar) in
  (code rChar - code "A"%char, code cChar - code "1"%char).

(** [moves] are the tokens that the successive [cin >> move] extract; at
    the end of the input the loop never ends. *)
Fixpoint readMove (b : Board) (moves : list string)
  : Out (Board * list string) :=
  match moves with
  | [] => lift OutOfFuel
  | move :: rest =>
    match move with
    | String c0 (String c1 EmptyString) =>
      let '(row, col) := cellOf c0 c1 in
      if (row <? 0) || (row >=? SIZE) || (col <? 0) || (col >=? SIZE)
      then say InvalidCell ;;; readMove b rest
      else if negb (Ascii.eqb (get b row col) BLANK)
           then say CellTaken ;;; readMove b rest
           else ret (set b row col PLAYER, rest)
    | _ => say InvalidFormat ;;; readMove b rest
    end
  end.

Definition playerMove (b : Board) (moves : list string)
  : Out (Board * list string) :=
  say YourMove ;;; readMove b moves.

(** ** playGame *)

(** What the run consumes: the character [cin >> choice] extracts, the
    content of the variable [level] before anything is stored in it, what
    the successive [cin >> level] find in the input, the tokens the
    successive [cin >> move] extract, and the values of [rand()].  The
    standard input is taken to be typed that way: one character, then
    what answers the menu, then tokens. *)
Record Input : Type := mkInput {
  choice : ascii;
  level0 : Z;
  levels : list Typed;
  moves : list string;
  draws : list nat
}.

(** One turn of the loop body, before the board is shown. *)
Definition turn (b : Board) (playerFirst : bool) (difficulty : Z)
           (mv : list string) (dr : list nat)
  : Out (Board * list string * list nat) :=
  if playerFirst then
    '(b1, mv1) <- playerMove b mv ;;
    ret (b1, mv1, dr)
  else
    say Thinking ;;;
    '(b1, dr1) <- lift (makeAIMove b difficulty dr) ;;
    ret (b1, mv, dr1).

(** The [while (true)] loop; [fuel] bounds the number of iterations.  The
    result is the value of [winner] and the board at the [break]. *)
Fixpoint gameLoop (fuel : nat) (b : Board) (playerFirst : bool)
         (difficulty : Z) (mv : list string) (dr : list nat)
  : Out (ascii * Board) :=
  match fuel with
  | O => lift OutOfFuel
  | S fuel' =>
    '(b1, mv1, dr1) <- turn b playerFirst difficulty mv dr ;;
    say (BoardText (printBoard b1)) ;;;
    let winner := checkWinner b1 in
    if negb (Ascii.eqb winner BLANK) || isDraw b1 then ret (winner, b1)
    else gameLoop fuel' b1 (negb playerFirst) difficulty mv1 dr1
  end.

Definition announce (winner : ascii) : Msg :=
  if Ascii.eqb winner PLAYER then YouWin
  else if Ascii.eqb winner AI then AIWins
  else ItsADraw.

Definition playGameFuel (fuel : nat) (inp : Input) : Out Board :=
  playerFirst <- isPlayerFirst (choice inp) ;;
  '(difficulty, _, good) <- chooseDifficulty (level0 inp) (levels inp) ;;
  say (BoardText (printBoard emptyBoard)) ;;;
  '(winner, b) <- gameLoop fuel emptyBoard playerFirst difficulty
                           (if good then moves inp else []) (draws inp) ;;
  say (announce winner) ;;;
  ret b.

(** Nine iterations fill the board.  When [chooseDifficulty] came back
    with the stream in its fail state, no [cin >> move] extracts
    anything. *)
Definition playGame (inp : Input) : Out Board := playGameFuel 9 inp.

(** ** More vocabulary *)


(** The test of [minimax] for returning without a further call. *)
Definition terminal (b : Board) : bool :=
  (evaluate b =? 10) || (evaluate b =? -10) || isDraw b.

(** Every pair of draws in [pre] lands on a cell that is taken. *)
Fixpoint allTaken (b : Board) (pre : list nat) : bool :=
  match pre with
  | [] => true
  | x :: y :: pre' =>
    negb (Ascii.eqb (get b (Z.rem (Z.of_nat x) SIZE)
                         (Z.rem (Z.of_nat y) SIZE)) BLANK)
    && allTaken b pre'
  | _ => false
  end.

(** Only the blank and the two marks occur on the board. *)
Definition wellMarked (b : Board) : Prop :=
  forall r c, inBounds r c = true ->
              get b r c = BLANK \/ get b r c = PLAYER \/ get b r c = AI.

(** The letters and digits of a cell name. *)
Definition upperRow (r : Z) : ascii := ascii_of_N (Z.to_N (65 + r)).
Definition lowerRow (r : Z) : ascii := ascii_of_N (Z.to_N (97 + r)).
Definition digitCol (c : Z) : ascii := ascii_of_N (Z.to_N (49 + c)).

Definition token (c0 c1 : ascii) : string := String c0 (String c1 EmptyString).

(** A number that [cin >> level] extracts and the test turns down. *)
Definition turnedDown (t : Typed) : bool :=
  match t with
  | Num n => (INT_MIN <=? n) && (n <=? INT_MAX) && negb (validLevel n)
  | NotNum => false
  end.

(** Something [cin >> level] cannot extract: no number, or a number that
    does not fit an [int]. *)
Definition noInt (t : Typed) : bool :=
  match t with
  | Num n => negb ((INT_MIN <=? n) && (n <=? INT_MAX))
  | NotNum => true
  end.

(** The mark [minimax] places in each branch. *)
Definition markOf (isMaximizing : bool) : ascii :=
  if isMaximizing then AI else PLAYER.

(** Score of the board after the mover of [minimax b isMaximizing] has
    marked a cell: the operand of [max] or [min] in the loop. *)
Definition replyScore (b : Board) (isMaximizing : bool) (rc : Z * Z) : Z :=
  scoreOf (minimax (set b (fst rc) (snd rc) (markOf isMaximizing))
                   (negb isMaximizing)).

(** The score [minimax] gives a position of a match: the program maximizes
    when it is to move, the human minimizes. *)
Definition positionValue (s : Board * bool) : Z :=
  scoreOf (minimax (fst s) (negb (snd s))).


(** The messages that answer a rejected token. *)
Definition isRejection (m : Msg) : bool :=
  match m with
  | InvalidFormat | InvalidCell | CellTaken => true
  | _ => false
  end.

(** The three messages that end a game. *)
Definition isVerdict (m : Msg) : bool :=
  match m with
  | YouWin | AIWins | ItsADraw => true
  | _ => false
  end.

(** * Properties *)

(** ** The array: reads after writes *)

Lemma in_cells (r c : Z) : In (r, c) cells <-> inBounds r c = true.
Proof.
  unfold inBounds, SIZE, cells. split.
  - simpl. intros H.
    repeat (destruct H as [H | H]; [inversion H; subst; reflexivity | ]).
    contradiction.
  - rewrite !andb_true_iff, !Z.leb_le, !Z.ltb_lt. intros [[[Hr0 Hr1] Hc0] Hc1].
    assert (Hr : r = 0 \/ r = 1 \/ r = 2) by lia.
    assert (Hc : c = 0 \/ c = 1 \/ c = 2) by lia.
    destruct Hr as [-> | [-> | ->]]; destruct Hc as [-> | [-> | ->]];
      simpl; tauto.
Qed.

(** Case analysis on an index pair known to lie in the array. *)
Ltac each_cell H :=
  apply in_cells in H; simpl in H;
  repeat (destruct H as [H | H]; [inversion H; subst; clear H | ]);
  [ .. | contradiction ].

Ltac open_board b :=
  let w0 := fresh "w" in let w1 := fresh "w" in let w2 := fresh "w" in
  destruct b as [w0 w1 w2]; destruct w0, w1, w2.

(** Case analysis on an [int] index: 0, 1, 2 or outside the array. *)
Ltac zcase r := destruct r as [ | [ [ ? | ? | ] | [ ? | ? | ] | ] | ? ].

Lemma get_set (b : Board) (r c r' c' : Z) (x : ascii) :
  get (set b r c x) r' c' =
  if inBounds r c && (r =? r') && (c =? c') then x else get b r' c'.
Proof. zcase r; zcase c; zcase r'; zcase c'; reflexivity. Qed.

Lemma get_set_same (b : Board) (r c : Z) (x : ascii) :
  inBounds r c = true -> get (set b r c x) r c = x.
Proof. intros H. rewrite get_set, H, !Z.eqb_refl. reflexivity. Qed.

Lemma get_set_other (b : Board) (r c r' c' : Z) (x : ascii) :
  (r, c) <> (r', c') -> get (set b r c x) r' c' = get b r' c'.
Proof.
  intros Hne. rewrite get_set.
  destruct (Z.eqb_spec r r'); destruct (Z.eqb_spec c c');
    rewrite ?andb_false_r; try reflexivity.
  congruence.
Qed.

(** Writing a cell and then writing back what it held restores the array:
    the undo step of every trial placement. *)
Lemma set_undo (b : Board) (r c : Z) (x : ascii) :
  set (set b r c x) r c (get b r c) = b.
Proof. open_board b; zcase r; zcase c; reflexivity. Qed.

Lemma set_revert (b : Board) (r c : Z) (x : ascii) :
  get b r c = BLANK -> set (set b r c x) r c BLANK = b.
Proof. intros <-. apply set_undo. Qed.

Lemma get_blank_inBounds (b : Board) (r c : Z) :
  get b r c = BLANK -> inBounds r c = true.
Proof. zcase r; zcase c; try reflexivity; discriminate. Qed.

(** ** Counting blank cells *)

Lemma NoDup_cells : NoDup cells.
Proof.
  unfold cells.
  repeat (constructor; [simpl; intros H;
    repeat (destruct H as [H | H]; [discriminate H | ]); exact H | ]).
  constructor.
Qed.

Lemma filter_drop_one {A : Type} (f g : A -> bool) (l : list A) (x : A) :
  NoDup l -> In x l -> f x = true -> g x = false ->
  (forall y, In y l -> y <> x -> g y = f y) ->
  length (filter f l) = S (length (filter g l)).
Proof.
  intros Hnd. induction Hnd as [ | h l Hh Hnd IH]; intros Hin Hf Hg Hrest.
  - destruct Hin.
  - simpl. destruct Hin as [-> | Hin].
    + rewrite Hf, Hg. simpl. f_equal. f_equal.
      apply filter_ext_in. intros y Hy. symmetry. apply Hrest.
      * right; exact Hy.
      * intros ->. contradiction.
    + assert (Hne : h <> x) by (intros ->; contradiction).
      rewrite (Hrest h (or_introl eq_refl) Hne).
      assert (IH' : length (filter f l) = S (length (filter g l))).
      { apply IH; auto. intros y Hy. apply Hrest. right; exact Hy. }
      destruct (f h); simpl; rewrite IH'; reflexivity.
Qed.

(** Placing a mark on a blank cell removes exactly one blank cell. *)
Lemma emptyCount_set (b : Board) (r c : Z) (x : ascii) :
  get b r c = BLANK -> x <> BLANK ->
  emptyCount b = S (emptyCount (set b r c x)).
Proof.
  intros Hb Hx. unfold emptyCount.
  apply (filter_drop_one _ _ cells (r, c)).
  - exact NoDup_cells.
  - apply in_cells. eapply get_blank_inBounds; eassumption.
  - unfold blankAt. simpl. rewrite Hb. reflexivity.
  - unfold blankAt. simpl. rewrite get_set_same.
    + apply Ascii.eqb_neq. exact Hx.
    + eapply get_blank_inBounds; eassumption.
  - intros [r' c'] _ Hne. unfold blankAt. simpl.
    rewrite get_set_other; [reflexivity | congruence].
Qed.

Lemma blankAt_true (b : Board) (r c : Z) :
  blankAt b (r, c) = true <-> get b r c = BLANK.
Proof. unfold blankAt. simpl. apply Ascii.eqb_eq. Qed.

Lemma emptyCount_zero (b : Board) :
  emptyCount b = 0%nat <->
  (forall r c, inBounds r c = true -> get b r c <> BLANK).
Proof.
  unfold emptyCount. split.
  - intros H r c Hin Hb.
    assert (Hx : In (r, c) (filter (blankAt b) cells)).
    { apply filter_In. split; [apply in_cells; exact Hin | ].
      apply blankAt_true; exact Hb. }
    destruct (filter (blankAt b) cells); [destruct Hx | discriminate H].
  - intros H. destruct (filter (blankAt b) cells) as [ | [r c] l] eqn:E;
      [reflexivity | ].
    assert (Hx : In (r, c) (filter (blankAt b) cells))
      by (rewrite E; left; reflexivity).
    apply filter_In in Hx. destruct Hx as [Hin Hb].
    apply in_cells in Hin. apply blankAt_true in Hb.
    exfalso. exact (H r c Hin Hb).
Qed.

(** [isDraw] looks at nothing but the blank cells. *)
Lemma isDraw_forallb (b : Board) :
  isDraw b = forallb (fun rc => negb (blankAt b rc)) cells.
Proof.
  unfold isDraw, blankAt, cells, range. simpl.
  rewrite !orb_false_r, !andb_true_r, !negb_orb, !andb_assoc. reflexivity.
Qed.

Lemma isDraw_true (b : Board) :
  isDraw b = true <->
  (forall r c, inBounds r c = true -> get b r c <> BLANK).
Proof.
  rewrite isDraw_forallb, forallb_forall. split.
  - intros H r c Hin Hb.
    specialize (H (r, c) (proj2 (in_cells r c) Hin)).
    rewrite (proj2 (blankAt_true b r c) Hb) in H. discriminate H.
  - intros H [r c] Hin. apply in_cells in Hin.
    destruct (blankAt b (r, c)) eqn:E; [ | reflexivity].
    apply blankAt_true in E. exfalso. exact (H r c Hin E).
Qed.

Lemma isDraw_emptyCount (b : Board) :
  isDraw b = true <-> emptyCount b = 0%nat.
Proof. rewrite isDraw_true, emptyCount_zero. reflexivity. Qed.

Lemma isDraw_false_blank (b : Board) :
  isDraw b = false -> filter (blankAt b) cells <> [].
Proof.
  intros H E.
  assert (H0 : emptyCount b = 0%nat) by (unfold emptyCount; rewrite E; reflexivity).
  apply isDraw_emptyCount in H0. congruence.
Qed.

(** ** The search loop *)

Section Scan.

Variable rec : Board -> result (Z * Board).
Variable mark : ascii.
Variable pick : Z -> Z -> Z.
Variable b : Board.

(** If every call made by the loop succeeds and gives its board back as
    it received it, the loop folds [pick] over the scores of the blank
    cells, in the order of the scan, and restores the board. *)
Lemma scan_fold (cs : list (Z * Z)) (best : Z) :
  (forall r c, In (r, c) cs -> get b r c = BLANK ->
     exists v, rec (set b r c mark) = Ok (v, set b r c mark)) ->
  scan rec mark pick cs best b =
  Ok (fold_left pick (map (trial rec mark b) (filter (blankAt b) cs)) best,
      b).
Proof.
  revert best. induction cs as [ | [r c] cs IH]; intros best Hrec.
  - reflexivity.
  - simpl. unfold blankAt at 1. simpl.
    destruct (Ascii.eqb (get b r c) BLANK) eqn:E.
    + apply Ascii.eqb_eq in E.
      destruct (Hrec r c (or_introl eq_refl) E) as [v Hv].
      simpl. unfold trial at 2. simpl. rewrite Hv. simpl.
      rewrite (set_revert b r c mark E).
      apply IH. intros r' c' Hin. apply Hrec. right; exact Hin.
    + apply IH. intros r' c' Hin. apply Hrec. right; exact Hin.
Qed.

End Scan.

Lemma scan_mono (rec rec' : Board -> result (Z * Board)) (mark : ascii)
      (pick : Z -> Z -> Z) :
  (forall b x, rec b = Ok x -> rec' b = Ok x) ->
  forall cs best b x,
    scan rec mark pick cs best b = Ok x ->
    scan rec' mark pick cs best b = Ok x.
Proof.
  intros Hrec. induction cs as [ | [r c] cs IH]; intros best b x; simpl.
  - trivial.
  - destruct (Ascii.eqb (get b r c) BLANK); [ | apply IH].
    destruct (rec (set b r c mark)) as [[v b1] | | ] eqn:E;
      try discriminate.
    rewrite (Hrec _ _ E). apply IH.
Qed.

Lemma fold_max_score (l : list Z) (a : Z) :
  gameScore a -> Forall gameScore l -> gameScore (fold_left Z.max l a).
Proof.
  revert a. induction l as [ | v l IH]; intros a Ha Hl; simpl.
  - exact Ha.
  - inversion Hl as [ | ? ? Hv Hl']; subst. apply IH; [ | exact Hl'].
    unfold gameScore in *. lia.
Qed.

Lemma fold_min_score (l : list Z) (a : Z) :
  gameScore a -> Forall gameScore l -> gameScore (fold_left Z.min l a).
Proof.
  revert a. induction l as [ | v l IH]; intros a Ha Hl; simpl.
  - exact Ha.
  - inversion Hl as [ | ? ? Hv Hl']; subst. apply IH; [ | exact Hl'].
    unfold gameScore in *. lia.
Qed.

(** The sentinels are absorbed by the first score. *)
Lemma fold_max_sentinel (l : list Z) :
  l <> [] -> Forall gameScore l -> gameScore (fold_left Z.max l (-1000)).
Proof.
  destruct l as [ | v l]; [congruence | ]. intros _ Hl.
  inversion Hl as [ | ? ? Hv Hl']; subst. simpl.
  apply fold_max_score; [ | exact Hl']. unfold gameScore in *. lia.
Qed.

Lemma fold_min_sentinel (l : list Z) :
  l <> [] -> Forall gameScore l -> gameScore (fold_left Z.min l 1000).
Proof.
  destruct l as [ | v l]; [congruence | ]. intros _ Hl.
  inversion Hl as [ | ? ? Hv Hl']; subst. simpl.
  apply fold_min_score; [ | exact Hl']. unfold gameScore in *. lia.
Qed.

Lemma evaluate_score (b : Board) : gameScore (evaluate b).
Proof.
  unfold evaluate, gameScore.
  destruct (Ascii.eqb (checkWinner b) AI); [lia | ].
  destruct (Ascii.eqb (checkWinner b) PLAYER); lia.
Qed.

Lemma AI_not_blank : AI <> BLANK.
Proof. discriminate. Qed.

Lemma PLAYER_not_blank : PLAYER <> BLANK.
Proof. discriminate. Qed.

Lemma minimax_fuel_S (fuel : nat) (b : Board) (m : bool) :
  minimax_fuel (S fuel) b m =
  if (evaluate b =? 10) || (evaluate b =? -10) || isDraw b
  then Ok (evaluate b, b)
  else if m
       then scan (fun b' => minimax_fuel fuel b' false) AI Z.max cells
                 (-1000) b
       else scan (fun b' => minimax_fuel fuel b' true) PLAYER Z.min cells
                 1000 b.
Proof. reflexivity. Qed.

(** With more fuel than blank cells, [minimax_fuel] returns a game score
    and the board it was given. *)
Lemma minimax_fuel_total (fuel : nat) :
  forall (b : Board) (m : bool),
    (emptyCount b < fuel)%nat ->
    exists v, minimax_fuel fuel b m = Ok (v, b) /\ gameScore v.
Proof.
  induction fuel as [ | fuel IH]; intros b m Hlt; [lia | ].
  rewrite minimax_fuel_S.
  destruct ((evaluate b =? 10) || (evaluate b =? -10) || isDraw b) eqn:T.
  - exists (evaluate b). split; [reflexivity | apply evaluate_score].
  - apply orb_false_iff in T. destruct T as [_ Hd].
    assert (Hsub : forall mark m' r c, mark <> BLANK ->
              In (r, c) cells -> get b r c = BLANK ->
              exists v, minimax_fuel fuel (set b r c mark) m'
                        = Ok (v, set b r c mark) /\ gameScore v).
    { intros mark m' r c Hm _ Hb. apply IH.
      rewrite (emptyCount_set b r c mark Hb Hm) in Hlt. lia. }
    assert (Hall : forall mark m', mark <> BLANK ->
              Forall gameScore
                (map (trial (fun b' => minimax_fuel fuel b' m') mark b)
                     (filter (blankAt b) cells))).
    { intros mark m' Hm. apply Forall_forall. intros v Hv.
      apply in_map_iff in Hv. destruct Hv as [[r c] [<- Hin]].
      apply filter_In in Hin. destruct Hin as [Hin Hb].
      apply blankAt_true in Hb.
      destruct (Hsub mark m' r c Hm Hin Hb) as [v [E Hv]].
      unfold trial. simpl. rewrite E. exact Hv. }
    destruct m.
    + rewrite scan_fold.
      * eexists. split; [reflexivity | ].
        apply fold_max_sentinel;
          [ | apply Hall; exact AI_not_blank].
        intros E. apply map_eq_nil in E.
        exact (isDraw_false_blank b Hd E).
      * intros r c Hin Hb.
        destruct (Hsub AI false r c AI_not_blank Hin Hb) as [v [E _]].
        exists v; exact E.
    + rewrite scan_fold.
      * eexists. split; [reflexivity | ].
        apply fold_min_sentinel;
          [ | apply Hall; exact PLAYER_not_blank].
        intros E. apply map_eq_nil in E.
        exact (isDraw_false_blank b Hd E).
      * intros r c Hin Hb.
        destruct (Hsub PLAYER true r c PLAYER_not_blank Hin Hb) as [v [E _]].
        exists v; exact E.
Qed.

(** More fuel never changes a result. *)
Lemma minimax_fuel_mono (n : nat) :
  forall (b : Board) (m : bool) (x : Z * Board),
    minimax_fuel n b m = Ok x ->
    forall n', (n <= n')%nat -> minimax_fuel n' b m = Ok x.
Proof.
  induction n as [ | n IH]; intros b m x H n' Hle; [discriminate H | ].
  destruct n' as [ | n']; [lia | ].
  rewrite minimax_fuel_S in *.
  destruct ((evaluate b =? 10) || (evaluate b =? -10) || isDraw b);
    [exact H | ].
  destruct m.
  - eapply scan_mono; [ | exact H].
    intros b' x' E. apply (IH _ _ _ E). lia.
  - eapply scan_mono; [ | exact H].
    intros b' x' E. apply (IH _ _ _ E). lia.
Qed.

Lemma minimax_total (b : Board) (m : bool) :
  exists v, minimax b m = Ok (v, b) /\ gameScore v.
Proof. unfold minimax. apply minimax_fuel_total. lia. Qed.

(** The loop consults its recursive call on the trial boards and nowhere
    else. *)
Lemma scan_calls (rec rec' : Board -> result (Z * Board)) (mark : ascii)
      (pick : Z -> Z -> Z) (b : Board) :
  (forall b' v b'', rec b' = Ok (v, b'') -> b'' = b') ->
  (forall b', In b' (trialBoards b mark) -> rec b' = rec' b') ->
  forall best, scan rec mark pick cells best b
               = scan rec' mark pick cells best b.
Proof.
  intros Hkeep. unfold trialBoards. generalize cells as cs.
  induction cs as [ | [r c] cs IH]; intros Hsame best; [reflexivity | ].
  assert (Htl : blankAt b (r, c) = Ascii.eqb (get b r c) BLANK)
    by reflexivity.
  simpl in *. rewrite Htl in Hsame.
  destruct (Ascii.eqb (get b r c) BLANK) eqn:E.
  - simpl in Hsame. rewrite <- (Hsame (set b r c mark) (or_introl eq_refl)).
    destruct (rec (set b r c mark)) as [[v b1] | | ] eqn:R; try reflexivity.
    rewrite (Hkeep _ _ _ R).
    rewrite (set_revert b r c mark (proj1 (Ascii.eqb_eq _ _) E)).
    apply IH. intros b' Hb'. apply Hsame. right; exact Hb'.
  - apply IH. exact Hsame.
Qed.

Lemma trialBoards_smaller (b : Board) (mark : ascii) (b' : Board) :
  mark <> BLANK -> In b' (trialBoards b mark) ->
  (emptyCount b' < emptyCount b)%nat.
Proof.
  intros Hm Hin. unfold trialBoards in Hin. apply in_map_iff in Hin.
  destruct Hin as [[r c] [<- Hin]]. apply filter_In in Hin.
  destruct Hin as [_ Hb]. apply blankAt_true in Hb. simpl.
  rewrite (emptyCount_set b r c mark Hb Hm). lia.
Qed.

(** ** tryWinningMove leaves the board as it found it *)

Lemma tryCells_board (cs : list (Z * Z)) (symbol : ascii) :
  forall b, snd (tryCells cs b symbol) = b.
Proof.
  induction cs as [ | [i j] cs IH]; intros b; simpl; [reflexivity | ].
  destruct (Ascii.eqb (get b i j) BLANK) eqn:E; [ | apply IH].
  apply Ascii.eqb_eq in E.
  rewrite (set_revert b i j symbol E).
  destruct (Ascii.eqb (checkWinner (set b i j symbol)) symbol);
    [reflexivity | apply IH].
Qed.

(** ** The loop of makeHardAIMove *)

Lemma searchCells_fold (b : Board) (cs : list (Z * Z)) :
  forall best,
    searchCells cs best b =
    Ok (fold_left (better b) (filter (blankAt b) cs) best, b).
Proof.
  induction cs as [ | [r c] cs IH]; intros best; [reflexivity | ].
  simpl. unfold blankAt at 1. simpl.
  destruct (Ascii.eqb (get b r c) BLANK) eqn:E; [ | apply IH].
  apply Ascii.eqb_eq in E.
  destruct (minimax_total (set b r c AI) false) as [v [Hv _]].
  simpl. unfold better at 2, moveScore. simpl.
  rewrite Hv. simpl. rewrite (set_revert b r c AI E).
  destruct (v >? bestVal best); apply IH.
Qed.

Section ArgMax.

Variable sc : Z * Z -> Z.

(** A left-to-right scan that replaces the candidate only on a strictly
    greater score ends on the first cell of greatest score. *)
Lemma keepBest_fold (l : list (Z * Z)) :
  forall best,
    (fold_left (keepBest sc) l best = best /\
     forall x, In x l -> sc x <= bestVal best)
    \/
    (exists l1 x l2,
        l = l1 ++ x :: l2 /\
        fold_left (keepBest sc) l best = mkBest (sc x) (fst x) (snd x) /\
        bestVal best < sc x /\
        (forall y, In y l1 -> sc y < sc x) /\
        (forall y, In y l2 -> sc y <= sc x)).
Proof.
  induction l as [ | a l IH]; intros best.
  - left. split; [reflexivity | intros x []].
  - simpl. unfold keepBest at 2 4.
    destruct (Z.gtb_spec (sc a) (bestVal best)) as [Hgt | Hle].
    + right.
      destruct (IH (mkBest (sc a) (fst a) (snd a)))
        as [[Hres Hall] | [l1 [x [l2 [Hl [Hres [Hx [H1 H2]]]]]]]].
      * exists [], a, l. simpl in Hall. repeat split; auto.
        intros y [].
      * exists (a :: l1), x, l2. simpl in Hx. subst l.
        repeat split; auto; try lia.
        intros y [<- | Hy]; [exact Hx | apply H1; exact Hy].
    + destruct (IH best)
        as [[Hres Hall] | [l1 [x [l2 [Hl [Hres [Hx [H1 H2]]]]]]]].
      * left. split; [exact Hres | ].
        intros x [<- | Hx]; [exact Hle | apply Hall; exact Hx].
      * right. exists (a :: l1), x, l2. subst l.
        repeat split; auto.
        intros y [<- | Hy]; [lia | apply H1; exact Hy].
Qed.

End ArgMax.

Lemma cells_sorted : StronglySorted scannedBefore cells.
Proof.
  unfold cells, scannedBefore, rowMajor, SIZE.
  repeat (constructor; [ | repeat constructor; simpl; lia]).
  constructor.
Qed.

Lemma filter_sorted {A : Type} (R : A -> A -> Prop) (f : A -> bool)
      (l : list A) :
  StronglySorted R l -> StronglySorted R (filter f l).
Proof.
  induction 1 as [ | a l Hs IH Ha]; simpl; [constructor | ].
  destruct (f a); [ | exact IH].
  constructor; [exact IH | ].
  rewrite Forall_forall in *. intros x Hx. apply filter_In in Hx.
  apply Ha. tauto.
Qed.

Lemma sorted_after {A : Type} (R : A -> A -> Prop) (l1 l2 : list A) (x : A) :
  StronglySorted R (l1 ++ x :: l2) -> Forall (R x) l2.
Proof.
  induction l1 as [ | a l1 IH]; simpl; intros H; inversion H; subst; auto.
Qed.

(** What the two loops of [makeHardAIMove] compute on a board with a blank
    cell: the board is handed back unchanged, and the candidate is the
    blank cell of greatest score that comes first in the scan. *)
Lemma hardSearch_spec (b : Board) :
  isDraw b = false ->
  exists r c,
    hardSearch b = Ok (mkBest (moveScore b (r, c)) r c, b) /\
    get b r c = BLANK /\
    forall r' c', get b r' c' = BLANK ->
      moveScore b (r', c') <= moveScore b (r, c) /\
      (rowMajor (r', c') < rowMajor (r, c) ->
       moveScore b (r', c') < moveScore b (r, c)).
Proof.
  intros Hd. unfold hardSearch. rewrite searchCells_fold.
  change (better b) with (keepBest (moveScore b)).
  assert (Hscore : forall x, -1000 < moveScore b x).
  { intros [r c]. unfold moveScore. simpl.
    destruct (minimax_total (set b r c AI) false) as [v [-> Hv]].
    simpl. unfold gameScore in Hv. lia. }
  destruct (keepBest_fold (moveScore b) (filter (blankAt b) cells)
                          (mkBest (-1000) (-1) (-1)))
    as [[_ Hall] | [l1 [[r c] [l2 [Hl [Hres [_ [H1 H2]]]]]]]].
  - exfalso. destruct (filter (blankAt b) cells) as [ | x l] eqn:E.
    + exact (isDraw_false_blank b Hd E).
    + specialize (Hall x (or_introl eq_refl)). specialize (Hscore x).
      simpl in Hall. lia.
  - exists r, c. rewrite Hres. simpl.
    assert (Hin : In (r, c) (filter (blankAt b) cells))
      by (rewrite Hl; apply in_or_app; right; left; reflexivity).
    apply filter_In in Hin. destruct Hin as [_ Hrc].
    apply blankAt_true in Hrc.
    split; [reflexivity | ]. split; [exact Hrc | ].
    intros r' c' Hb'.
    assert (Hin' : In (r', c') (filter (blankAt b) cells)).
    { apply filter_In. split.
      - apply in_cells. eapply get_blank_inBounds; eassumption.
      - apply blankAt_true; exact Hb'. }
    assert (Hsorted : Forall (scannedBefore (r, c)) l2).
    { apply (sorted_after _ l1). rewrite <- Hl.
      apply filter_sorted. exact cells_sorted. }
    rewrite Hl in Hin'. apply in_app_or in Hin'.
    destruct Hin' as [Hin' | [Heq | Hin']].
    + specialize (H1 _ Hin'). split; [lia | intros _; exact H1].
    + inversion Heq; subst. split; [lia | intros; lia].
    + specialize (H2 _ Hin'). split; [exact H2 | ].
      rewrite Forall_forall in Hsorted. specialize (Hsorted _ Hin').
      unfold scannedBefore in Hsorted. intros; lia.
Qed.

Lemma hardSearch_full (b : Board) :
  isDraw b = true -> hardSearch b = Ok (mkBest (-1000) (-1) (-1), b).
Proof.
  intros Hd. unfold hardSearch. rewrite searchCells_fold.
  apply isDraw_emptyCount in Hd. unfold emptyCount in Hd.
  destruct (filter (blankAt b) cells); [reflexivity | discriminate Hd].
Qed.

Lemma moveScore_minimax (b : Board) (r c : Z) :
  minimax (set b r c AI) false = Ok (moveScore b (r, c), set b r c AI).
Proof.
  unfold moveScore. simpl.
  destruct (minimax_total (set b r c AI) false) as [v [-> _]]. reflexivity.
Qed.

(** ** Matches on difficulty 3 *)

Lemma hardSafe_start :
  hardSafe 10 emptyBoard true = true /\ hardSafe 10 emptyBoard false = true.
Proof. split; vm_cast_no_check (eq_refl true). Qed.

Lemma hardSafe_S (n : nat) (b : Board) (playerToMove : bool) :
  hardSafe (S n) b playerToMove =
  negb (Ascii.eqb (checkWinner b) PLAYER)
  && (gameOver b
      || if playerToMove
         then forallb (fun rc =>
                         negb (blankAt b rc)
                         || hardSafe n (set b (fst rc) (snd rc) PLAYER) false)
                      cells
         else match makeHardAIMove b with
              | Ok b' => hardSafe n b' true
              | _ => false
              end).
Proof. reflexivity. Qed.

Lemma hardSafe_not_lost (n : nat) (b : Board) (pf : bool) :
  hardSafe n b pf = true -> checkWinner b <> PLAYER.
Proof.
  destruct n as [ | n]; [discriminate | ].
  rewrite hardSafe_S. intros H. apply andb_true_iff in H.
  destruct H as [H _]. apply negb_true_iff in H.
  apply Ascii.eqb_neq. exact H.
Qed.

(** A position that passes the check hands the property on to the next
    position of the match. *)
Lemma hardSafe_ply (n : nat) (s t : Board * bool) :
  hardSafe n (fst s) (snd s) = true -> ply hardMove s t ->
  hardSafe (pred n) (fst t) (snd t) = true.
Proof.
  destruct n as [ | n]; [discriminate | ].
  rewrite hardSafe_S. intros H Hply. apply andb_true_iff in H.
  destruct H as [_ H].
  destruct Hply as [b r c Hgo Hin Hb | b b' Hgo Hmove]; cbn [fst snd] in *;
    rewrite Hgo in H; cbn [orb] in H.
  - rewrite forallb_forall in H.
    specialize (H (r, c) (proj2 (in_cells r c) Hin)).
    rewrite (proj2 (blankAt_true b r c) Hb) in H. exact H.
  - unfold hardMove in Hmove. rewrite Hmove in H. exact H.
Qed.

Lemma hardSafe_plays (s t : Board * bool) :
  plays hardMove s t ->
  (exists n, hardSafe n (fst s) (snd s) = true) ->
  exists n, hardSafe n (fst t) (snd t) = true.
Proof.
  induction 1 as [s | s t u Hst IH Htu]; intros Hs; [exact Hs | ].
  destruct (IH Hs) as [n Hn]. exists (pred n).
  eapply hardSafe_ply; eassumption.
Qed.

Lemma hardSafe_reachable (s : Board * bool) :
  reachable hardMove s -> exists n, hardSafe n (fst s) (snd s) = true.
Proof.
  intros [first Hp]. apply (hardSafe_plays _ _ Hp).
  exists 10%nat. destruct hardSafe_start as [Ht Hf].
  destruct first; [exact Ht | exact Hf].
Qed.

Lemma plays_trans (aiMove : Board -> Board -> Prop) (s t u : Board * bool) :
  plays aiMove s t -> plays aiMove t u -> plays aiMove s u.
Proof.
  intros Hst Htu. induction Htu as [ | t u v Htu IH Huv]; [exact Hst | ].
  eapply plays_on; [apply IH; exact Hst | exact Huv].
Qed.

(** No position of a match on difficulty 3 is a win of the human. *)
Lemma hard_match_not_lost (s : Board * bool) :
  reachable hardMove s -> checkWinner (fst s) <> PLAYER.
Proof.
  intros H. destruct (hardSafe_reachable s H) as [n Hn].
  eapply hardSafe_not_lost; exact Hn.
Qed.

(** ** Lines *)

Lemma lineMark_Some (b : Board) (p q s : Z * Z) (m : ascii) :
  lineMark b (p, q, s) = Some m <->
  m <> BLANK /\ get b (fst p) (snd p) = m /\ get b (fst q) (snd q) = m /\
  get b (fst s) (snd s) = m.
Proof.
  unfold lineMark.
  destruct (Ascii.eqb_spec (get b (fst p) (snd p)) BLANK) as [E0 | E0];
    destruct (Ascii.eqb_spec (get b (fst p) (snd p)) (get b (fst q) (snd q)))
      as [E1 | E1];
    destruct (Ascii.eqb_spec (get b (fst q) (snd q)) (get b (fst s) (snd s)))
      as [E2 | E2]; simpl; split;
      try discriminate;
      try (intros [Hm [H1 [H2 H3]]]; exfalso; congruence).
  - intros H. inversion H; subst. repeat split; congruence.
  - intros [Hm [H1 [H2 H3]]]. congruence.
Qed.

(** [checkWinner] is the first completed line in the order of the source. *)
Lemma checkWinner_firstWinner (b : Board) :
  checkWinner b = firstWinner b sourceOrder.
Proof.
  unfold checkWinner, sourceOrder, firstWinner, lineMark, range, find,
    rowWins, colWins, diagWins, antiWins. cbn [fst snd].
  repeat match goal with
         | |- context [if ?c then _ else _] => destruct c
         end; reflexivity.
Qed.

Lemma firstWinner_none (b : Board) (ls : list Line) :
  (forall l, In l ls -> lineMark b l = None) -> firstWinner b ls = BLANK.
Proof.
  induction ls as [ | l ls IH]; intros H; simpl; [reflexivity | ].
  rewrite (H l (or_introl eq_refl)). apply IH.
  intros l' Hl'. apply H. right; exact Hl'.
Qed.

Lemma firstWinner_blank (b : Board) (ls : list Line) :
  firstWinner b ls = BLANK -> forall l, In l ls -> lineMark b l = None.
Proof.
  induction ls as [ | l ls IH]; intros H l' Hl'; [destruct Hl' | ].
  simpl in H. destruct (lineMark b l) as [x | ] eqn:E.
  - subst x. destruct l as [[p q] s]. apply lineMark_Some in E.
    destruct E as [E _]. congruence.
  - destruct Hl' as [<- | Hl']; [exact E | apply IH; assumption].
Qed.

Lemma firstWinner_one (b : Board) (m : ascii) (ls : list Line) :
  (forall l x, In l ls -> lineMark b l = Some x -> x = m) ->
  (exists l, In l ls /\ lineMark b l = Some m) ->
  firstWinner b ls = m.
Proof.
  induction ls as [ | l ls IH]; intros Hall [l0 [Hin Hl0]];
    [destruct Hin | ].
  simpl. destruct (lineMark b l) as [x | ] eqn:E.
  - apply (Hall l x (or_introl eq_refl) E).
  - apply IH.
    + intros l' x Hl'. apply Hall. right; exact Hl'.
    + exists l0. destruct Hin as [-> | Hin]; [congruence | tauto].
Qed.

(** On a board where at most one mark has completed lines, the order in
    which the lines are tested does not matter. *)
Lemma firstWinner_order (b : Board) (m : ascii) (ls ls' : list Line) :
  (forall l x, In l ls -> lineMark b l = Some x -> x = m) ->
  (forall l, In l ls <-> In l ls') ->
  firstWinner b ls' = firstWinner b ls.
Proof.
  intros Hall Hsame.
  assert (Hall' : forall l x, In l ls' -> lineMark b l = Some x -> x = m).
  { intros l x Hl. apply Hall. apply Hsame; exact Hl. }
  assert (D : (exists l, In l ls /\ lineMark b l = Some m) \/
              (forall l, In l ls -> lineMark b l = None)).
  { clear Hsame Hall'. induction ls as [ | l ls IH].
    - right. intros l [].
    - destruct (lineMark b l) as [x | ] eqn:E.
      + left. exists l. split; [left; reflexivity | ].
        rewrite E. f_equal. apply (Hall l x (or_introl eq_refl) E).
      + destruct IH as [[l0 [Hin Hl0]] | Hnone].
        * intros l' x Hl'. apply Hall. right; exact Hl'.
        * left. exists l0. split; [right; exact Hin | exact Hl0].
        * right. intros l' [<- | Hl']; [exact E | apply Hnone; exact Hl']. }
  destruct D as [[l0 [Hin Hl0]] | Hnone].
  - rewrite (firstWinner_one b m ls Hall), (firstWinner_one b m ls' Hall');
      [reflexivity | | ]; exists l0; split; auto. apply Hsame; exact Hin.
  - rewrite (firstWinner_none b ls Hnone), (firstWinner_none b ls');
      [reflexivity | ]. intros l Hl. apply Hnone. apply Hsame; exact Hl.
Qed.

(** A mark placed on a blank cell of a board without a completed line can
    only complete lines of its own. *)
Lemma lineMark_after_set (b : Board) (r c : Z) (m x : ascii) (l : Line) :
  lineMark b l = None -> get b r c = BLANK ->
  lineMark (set b r c m) l = Some x -> x = m.
Proof.
  destruct l as [[p q] s]. intros Hnone Hb Hsome.
  apply lineMark_Some in Hsome. destruct Hsome as [Hx [Hp [Hq Hs]]].
  rewrite get_set in Hp, Hq, Hs.
  destruct (inBounds r c && (r =? fst p) && (c =? snd p)); [congruence | ].
  destruct (inBounds r c && (r =? fst q) && (c =? snd q)); [congruence | ].
  destruct (inBounds r c && (r =? fst s) && (c =? snd s)); [congruence | ].
  assert (H : lineMark b (p, q, s) = Some x)
    by (apply lineMark_Some; tauto).
  congruence.
Qed.

Lemma oneWinner_empty : oneWinner emptyBoard.
Proof.
  exists BLANK. intros l x Hl. unfold sourceOrder in Hl. simpl in Hl.
  repeat (destruct Hl as [<- | Hl]; [discriminate | ]). destruct Hl.
Qed.

Lemma oneWinner_set (b : Board) (r c : Z) (m : ascii) :
  gameOver b = false -> get b r c = BLANK -> oneWinner (set b r c m).
Proof.
  intros Hgo Hb. exists m. intros l x Hl.
  apply lineMark_after_set; [ | exact Hb].
  unfold gameOver in Hgo. apply orb_false_iff in Hgo.
  destruct Hgo as [Hw _]. apply negb_false_iff in Hw.
  apply Ascii.eqb_eq in Hw. rewrite checkWinner_firstWinner in Hw.
  apply (firstWinner_blank b sourceOrder Hw l Hl).
Qed.

Lemma oneWinner_plays (s t : Board * bool) :
  plays anyMove s t -> oneWinner (fst s) -> oneWinner (fst t).
Proof.
  induction 1 as [s | s t u Hst IH Htu]; intros Hs; [exact Hs | ].
  destruct Htu as [b r c Hgo Hin Hb | b b' Hgo [r [c [Hin [Hb ->]]]]];
    simpl; eapply oneWinner_set; eassumption.
Qed.

Lemma oneWinner_reachable (s : Board * bool) :
  reachable anyMove s -> oneWinner (fst s).
Proof.
  intros [first Hp]. apply (oneWinner_plays _ _ Hp). exact oneWinner_empty.
Qed.

(** ** The mirrored board *)

Lemma swapMark_blank (x : ascii) :
  Ascii.eqb (swapMark x) BLANK = Ascii.eqb x BLANK.
Proof.
  unfold swapMark.
  destruct (Ascii.eqb_spec x PLAYER) as [-> | ]; [reflexivity | ].
  destruct (Ascii.eqb_spec x AI) as [-> | ]; reflexivity.
Qed.

Lemma swapMark_involutive (x : ascii) : swapMark (swapMark x) = x.
Proof.
  unfold swapMark.
  destruct (Ascii.eqb_spec x PLAYER) as [-> | H1]; [reflexivity | ].
  destruct (Ascii.eqb_spec x AI) as [-> | H2]; [reflexivity | ].
  apply Ascii.eqb_neq in H1, H2. rewrite H1, H2. reflexivity.
Qed.

Lemma swapMark_eqb (x y : ascii) :
  Ascii.eqb (swapMark x) (swapMark y) = Ascii.eqb x y.
Proof.
  destruct (Ascii.eqb_spec x y) as [-> | Hne].
  - apply Ascii.eqb_refl.
  - apply Ascii.eqb_neq. intros E. apply Hne.
    rewrite <- (swapMark_involutive x), <- (swapMark_involutive y), E.
    reflexivity.
Qed.

Lemma get_mirror (b : Board) (r c : Z) :
  get (mirror b) r c = swapMark (get b r c).
Proof. zcase r; zcase c; reflexivity. Qed.

Lemma lineMark_mirror (b : Board) (l : Line) :
  lineMark (mirror b) l = option_map swapMark (lineMark b l).
Proof.
  destruct l as [[p q] s]. unfold lineMark.
  rewrite !get_mirror, swapMark_blank, !swapMark_eqb.
  destruct (negb (Ascii.eqb (get b (fst p) (snd p)) BLANK)
            && Ascii.eqb (get b (fst p) (snd p)) (get b (fst q) (snd q))
            && Ascii.eqb (get b (fst q) (snd q)) (get b (fst s) (snd s)));
    reflexivity.
Qed.

Lemma firstWinner_mirror (b : Board) (ls : list Line) :
  firstWinner (mirror b) ls = swapMark (firstWinner b ls).
Proof.
  induction ls as [ | l ls IH]; simpl; [reflexivity | ].
  rewrite lineMark_mirror. destruct (lineMark b l); simpl; auto.
Qed.

(** Exchanging the marks exchanges the winner. *)
Lemma checkWinner_mirror (b : Board) :
  checkWinner (mirror b) = swapMark (checkWinner b).
Proof. rewrite !checkWinner_firstWinner. apply firstWinner_mirror. Qed.

(** ** tryWinningMove finds the first winning cell *)

Lemma tryCells_find (symbol : ascii) (cs : list (Z * Z)) :
  forall b, fst (tryCells cs b symbol) = find (winsAtb b symbol) cs.
Proof.
  induction cs as [ | [i j] cs IH]; intros b; simpl; [reflexivity | ].
  unfold winsAtb at 1, blankAt. simpl.
  destruct (Ascii.eqb (get b i j) BLANK) eqn:E; simpl; [ | apply IH].
  destruct (Ascii.eqb (checkWinner (set b i j symbol)) symbol);
    [reflexivity | ].
  apply Ascii.eqb_eq in E. rewrite (set_revert b i j symbol E). apply IH.
Qed.

Lemma winsAtb_true (b : Board) (symbol : ascii) (r c : Z) :
  winsAtb b symbol (r, c) = true <-> winsAt b symbol r c.
Proof.
  unfold winsAtb, winsAt. simpl.
  rewrite andb_true_iff, blankAt_true, Ascii.eqb_eq. reflexivity.
Qed.

Lemma find_first (f : Z * Z -> bool) (l : list (Z * Z)) (x : Z * Z) :
  StronglySorted scannedBefore l -> find f l = Some x ->
  forall y, In y l -> f y = true -> rowMajor x <= rowMajor y.
Proof.
  induction 1 as [ | a l Hs IH Ha]; simpl; intros Hf y Hy Hfy;
    [destruct Hy | ].
  destruct (f a) eqn:E.
  - inversion Hf; subst. destruct Hy as [<- | Hy]; [lia | ].
    rewrite Forall_forall in Ha. specialize (Ha y Hy).
    unfold scannedBefore in Ha. lia.
  - destruct Hy as [<- | Hy]; [congruence | ].
    apply IH; assumption.
Qed.

Lemma rowMajor_inj (r c r' c' : Z) :
  inBounds r c = true -> inBounds r' c' = true ->
  rowMajor (r, c) = rowMajor (r', c') -> (r, c) = (r', c').
Proof.
  unfold inBounds, rowMajor, SIZE. cbn [fst snd].
  rewrite !andb_true_iff, !Z.leb_le, !Z.ltb_lt. intros H H' E.
  f_equal; lia.
Qed.

(** [tryWinningMove] answers with the first winning cell of the scan when
    there is one, with [false] when there is none, and hands the board
    back as it was. *)
Lemma tryWinningMove_first (b : Board) (symbol : ascii) (r c : Z) :
  firstWin b symbol r c -> tryWinningMove b symbol = (Some (r, c), b).
Proof.
  intros [Hw Hfirst]. unfold tryWinningMove.
  rewrite (surjective_pairing (tryCells cells b symbol)).
  rewrite tryCells_board, tryCells_find. f_equal.
  destruct (find (winsAtb b symbol) cells) as [[r' c'] | ] eqn:E.
  - pose proof (find_some _ _ E) as [Hin' Hw'].
    apply winsAtb_true in Hw'. apply in_cells in Hin'.
    pose proof (Hfirst r' c' Hw') as Hle.
    assert (Hin : In (r, c) cells).
    { apply in_cells. destruct Hw as [Hb _].
      eapply get_blank_inBounds; eassumption. }
    pose proof (find_first _ _ _ cells_sorted E (r, c) Hin
                           (proj2 (winsAtb_true b symbol r c) Hw)) as Hge.
    f_equal. symmetry. apply rowMajor_inj;
      [apply in_cells; exact Hin | exact Hin' | lia].
  - exfalso.
    assert (Hin : In (r, c) cells).
    { apply in_cells. destruct Hw as [Hb _].
      eapply get_blank_inBounds; eassumption. }
    pose proof (find_none _ _ E (r, c) Hin) as Hn.
    rewrite (proj2 (winsAtb_true b symbol r c) Hw) in Hn. discriminate Hn.
Qed.

Lemma tryWinningMove_none (b : Board) (symbol : ascii) :
  (forall r c, ~ winsAt b symbol r c) -> tryWinningMove b symbol = (None, b).
Proof.
  intros Hnone. unfold tryWinningMove.
  rewrite (surjective_pairing (tryCells cells b symbol)).
  rewrite tryCells_board, tryCells_find. f_equal.
  destruct (find (winsAtb b symbol) cells) as [[r' c'] | ] eqn:E;
    [ | reflexivity].
  pose proof (find_some _ _ E) as [_ Hw']. apply winsAtb_true in Hw'.
  exfalso. exact (Hnone r' c' Hw').
Qed.

(** The random strategy, when its loop ends, has put the program's mark on
    a blank cell and nothing else. *)
Lemma makeEasyAIMove_places (draws : list nat) :
  forall (n : nat) (b b' : Board) (rest : list nat),
    (length draws < n)%nat ->
    makeEasyAIMove b draws = Ok (b', rest) ->
    exists r c, inBounds r c = true /\ get b r c = BLANK /\
                b' = set b r c AI.
Proof.
  intros n. revert draws.
  induction n as [ | n IH]; intros draws b b' rest Hlen H; [lia | ].
  destruct draws as [ | x [ | y draws]]; try discriminate H.
  simpl in H.
  destruct (Ascii.eqb (get b (Z.rem (Z.of_nat x) SIZE)
                           (Z.rem (Z.of_nat y) SIZE)) BLANK) eqn:E;
    simpl in H.
  - inversion H; subst. apply Ascii.eqb_eq in E.
    exists (Z.rem (Z.of_nat x) SIZE), (Z.rem (Z.of_nat y) SIZE).
    split; [eapply get_blank_inBounds; eassumption | ]. split; auto.
  - apply (IH draws b b' rest); [simpl in Hlen; lia | exact H].
Qed.

(** ** What makeHardAIMove does *)

Lemma makeHardAIMove_spec (b : Board) :
  isDraw b = false ->
  exists r c,
    hardSearch b = Ok (mkBest (moveScore b (r, c)) r c, b) /\
    makeHardAIMove b = Ok (set b r c AI) /\
    inBounds r c = true /\
    get b r c = BLANK /\
    forall r' c', get b r' c' = BLANK ->
      moveScore b (r', c') <= moveScore b (r, c) /\
      (rowMajor (r', c') < rowMajor (r, c) ->
       moveScore b (r', c') < moveScore b (r, c)).
Proof.
  intros Hd. destruct (hardSearch_spec b Hd) as [r [c [Hs [Hb Hbest]]]].
  exists r, c. pose proof (get_blank_inBounds b r c Hb) as Hin.
  repeat split; try assumption; try (apply Hbest; assumption).
  unfold makeHardAIMove, store. rewrite Hs. simpl. rewrite Hin. reflexivity.
Qed.

Lemma gameOver_false_isDraw (b : Board) :
  gameOver b = false -> isDraw b = false.
Proof. unfold gameOver. intros H. apply orb_false_iff in H. tauto. Qed.

Lemma hardMove_anyMove (b b' : Board) :
  gameOver b = false -> hardMove b b' -> anyMove b b'.
Proof.
  intros Hgo Hm. apply gameOver_false_isDraw in Hgo.
  destruct (makeHardAIMove_spec b Hgo) as [r [c [_ [Hmv [Hin [Hb _]]]]]].
  unfold hardMove in Hm. exists r, c. repeat split; auto. congruence.
Qed.

Lemma plays_incl (ai1 ai2 : Board -> Board -> Prop) (s t : Board * bool) :
  (forall b b', gameOver b = false -> ai1 b b' -> ai2 b b') ->
  plays ai1 s t -> plays ai2 s t.
Proof.
  intros Hincl. induction 1 as [s | s t u Hst IH Htu]; [constructor | ].
  eapply plays_on; [exact IH | ].
  destruct Htu as [b r c Hgo Hin Hb | b b' Hgo Hmv].
  - constructor; assumption.
  - constructor; [exact Hgo | apply Hincl; assumption].
Qed.

(** The matches of difficulty 3 are matches of alternating legal play. *)
Lemma reachable_hard_any (s : Board * bool) :
  reachable hardMove s -> reachable anyMove s.
Proof.
  intros [first Hp]. exists first.
  eapply plays_incl; [ | exact Hp]. exact hardMove_anyMove.
Qed.

(** The restriction of the next theorem to matches in which
    [makeHardAIMove] made all the program's moves cannot be dropped: from a
    position of alternating legal play in which the program's earlier moves
    were poor, no move saves the game. *)
Remark forked_is_lost :
  reachable anyMove (forked, false) /\
  gameOver forked = false /\
  exists s, plays hardMove (forked, false) s /\ checkWinner (fst s) = PLAYER.
Proof.
  split; [ | split].
  - exists true.
    pose (b1 := set emptyBoard 0 0 PLAYER). pose (b2 := set b1 0 1 AI).
    pose (b3 := set b2 1 1 PLAYER). pose (b4 := set b3 2 2 AI).
    apply (plays_on _ _ (b4, true));
      [ | exact (ply_player anyMove b4 1 0 eq_refl eq_refl eq_refl)].
    apply (plays_on _ _ (b3, false));
      [ | apply (ply_ai anyMove b3 b4); [reflexivity | ];
          exists 2, 2; repeat split].
    apply (plays_on _ _ (b2, true));
      [ | exact (ply_player anyMove b2 1 1 eq_refl eq_refl eq_refl)].
    apply (plays_on _ _ (b1, false));
      [ | apply (ply_ai anyMove b1 b2); [reflexivity | ];
          exists 0, 1; repeat split].
    apply (plays_on _ _ (emptyBoard, true));
      [ | exact (ply_player anyMove emptyBoard 0 0 eq_refl eq_refl eq_refl)].
    apply plays_here.
  - reflexivity.
  - pose (b1 := set forked 0 2 AI).
    exists (set b1 1 2 PLAYER, false). split.
    + apply (plays_on _ _ (b1, true));
        [ | exact (ply_player hardMove b1 1 2 eq_refl eq_refl eq_refl)].
      apply (plays_on _ _ (forked, false)); [apply plays_here | ].
      apply (ply_ai hardMove forked b1); [reflexivity | ].
      unfold hardMove. vm_compute. reflexivity.
    + reflexivity.
Qed.

(** * Main theorems *)

(** C1.  On difficulty 3 the program never loses.  From every position of
    a match in which [makeHardAIMove] has made all the program's moves, on
    which the game goes on and the program is to move, [makeHardAIMove]
    places its mark on a blank cell, and no position that follows, whatever
    the human replies and with [makeHardAIMove] answering each time, is a
    win of the human. *)
Theorem hard_never_loses (b : Board) :
  reachable hardMove (b, false) -> gameOver b = false ->
  exists r c,
    inBounds r c = true /\
    get b r c = BLANK /\
    makeHardAIMove b = Ok (set b r c AI) /\
    forall s, plays hardMove (set b r c AI, true) s ->
              checkWinner (fst s) <> PLAYER.
Proof.
  intros Hreach Hgo.
  destruct (makeHardAIMove_spec b (gameOver_false_isDraw b Hgo))
    as [r [c [_ [Hmv [Hin [Hb _]]]]]].
  exists r, c. split; [exact Hin | ]. split; [exact Hb | ].
  split; [exact Hmv | ].
  intros s Hs. apply hard_match_not_lost.
  destruct Hreach as [first Hp]. exists first.
  eapply plays_trans; [ | exact Hs].
  eapply plays_on; [exact Hp | ]. constructor; assumption.
Qed.

Lemma hard_never_loses_witness :
  exists r c,
    inBounds r c = true /\
    get emptyBoard r c = BLANK /\
    makeHardAIMove emptyBoard = Ok (set emptyBoard r c AI) /\
    forall s, plays hardMove (set emptyBoard r c AI, true) s ->
              checkWinner (fst s) <> PLAYER.
Proof.
  apply (hard_never_loses emptyBoard).
  - exists false. constructor.
  - reflexivity.
Defined.

(** C2, as the code has it.  [isDraw] is true exactly when no cell is
    blank; it does not look for a winner.  On the boards on which
    [checkWinner] reports no winner, the test is therefore true exactly
    when no cell is blank and there is no winner. *)
Theorem isDraw_iff_full (b : Board) :
  (isDraw b = true <-> emptyCount b = 0%nat) /\
  (checkWinner b = BLANK ->
   (isDraw b = true <-> emptyCount b = 0%nat /\ checkWinner b = BLANK)).
Proof.
  split; [apply isDraw_emptyCount | ].
  intros Hw. rewrite isDraw_emptyCount. tauto.
Qed.

Lemma isDraw_iff_full_witness :
  checkWinner fullDrawn = BLANK /\
  (isDraw fullDrawn = true <->
   emptyCount fullDrawn = 0%nat /\ checkWinner fullDrawn = BLANK).
Proof.
  split; [reflexivity | ].
  apply (proj2 (isDraw_iff_full fullDrawn)). reflexivity.
Defined.

(** C2, as stated, fails on a full board with a line: [isDraw] is true
    there although [checkWinner] reports a winner. *)
Lemma isDraw_full_winner :
  ~ (isDraw fullWon = true <->
     emptyCount fullWon = 0%nat /\ checkWinner fullWon = BLANK).
Proof.
  intros [H _]. destruct (H eq_refl) as [_ Hw]. discriminate Hw.
Qed.

(** C3.  Trial and revert: [tryWinningMove], on both of its exits, the
    two loops of [makeHardAIMove] and [minimax] all return, and hand the
    board back equal to the board they received. *)
Theorem trial_and_revert (b : Board) :
  (forall symbol, snd (tryWinningMove b symbol) = b) /\
  (exists best, hardSearch b = Ok (best, b)) /\
  (forall isMaximizing, exists v, minimax b isMaximizing = Ok (v, b)).
Proof.
  split; [ | split].
  - intros symbol. apply tryCells_board.
  - unfold hardSearch. rewrite searchCells_fold. eexists. reflexivity.
  - intros m. destruct (minimax_total b m) as [v [Hv _]]. exists v; exact Hv.
Qed.

(** C4.  Tie-break of the hard search.  On a position on which the game
    goes on, the search ends on a blank cell [(r, c)] whose score [v] is
    the result of [minimax] with [isMaximizing = false] on the board with
    the mark on that cell; every blank cell scores at most [v], and every
    blank cell scanned earlier in row-major order scores strictly less.
    That cell receives the mark. *)
Theorem hard_tie_break (b : Board) :
  gameOver b = false ->
  exists r c v,
    hardSearch b = Ok (mkBest v r c, b) /\
    makeHardAIMove b = Ok (set b r c AI) /\
    inBounds r c = true /\
    get b r c = BLANK /\
    minimax (set b r c AI) false = Ok (v, set b r c AI) /\
    forall r' c' v',
      inBounds r' c' = true ->
      get b r' c' = BLANK ->
      minimax (set b r' c' AI) false = Ok (v', set b r' c' AI) ->
      v' <= v /\ (rowMajor (r', c') < rowMajor (r, c) -> v' < v).
Proof.
  intros Hgo.
  destruct (makeHardAIMove_spec b (gameOver_false_isDraw b Hgo))
    as [r [c [Hs [Hmv [Hin [Hb Hbest]]]]]].
  exists r, c, (moveScore b (r, c)).
  split; [exact Hs | ]. split; [exact Hmv | ]. split; [exact Hin | ].
  split; [exact Hb | ]. split; [apply moveScore_minimax | ].
  intros r' c' v' _ Hb' Hv'.
  rewrite moveScore_minimax in Hv'. inversion Hv'; subst v'.
  apply Hbest. exact Hb'.
Qed.

Lemma hard_tie_break_witness :
  exists r c v,
    hardSearch emptyBoard = Ok (mkBest v r c, emptyBoard) /\
    makeHardAIMove emptyBoard = Ok (set emptyBoard r c AI) /\
    inBounds r c = true /\
    get emptyBoard r c = BLANK /\
    minimax (set emptyBoard r c AI) false = Ok (v, set emptyBoard r c AI) /\
    forall r' c' v',
      inBounds r' c' = true ->
      get emptyBoard r' c' = BLANK ->
      minimax (set emptyBoard r' c' AI) false
      = Ok (v', set emptyBoard r' c' AI) ->
      v' <= v /\ (rowMajor (r', c') < rowMajor (r, c) -> v' < v).
Proof. apply (hard_tie_break emptyBoard). reflexivity. Defined.

Lemma firstWin_exists (b : Board) (symbol : ascii) :
  (exists r c, winsAt b symbol r c) -> exists r c, firstWin b symbol r c.
Proof.
  intros [r0 [c0 Hw0]].
  assert (Hin0 : In (r0, c0) cells).
  { apply in_cells. destruct Hw0 as [Hb _].
    eapply get_blank_inBounds; eassumption. }
  destruct (find (winsAtb b symbol) cells) as [[r c] | ] eqn:E.
  - exists r, c. pose proof (find_some _ _ E) as [Hin Hw].
    split; [apply winsAtb_true; exact Hw | ].
    intros r' c' Hw'.
    apply (find_first _ _ _ cells_sorted E (r', c')).
    + apply in_cells. destruct Hw' as [Hb _].
      eapply get_blank_inBounds; eassumption.
    + apply winsAtb_true; exact Hw'.
  - pose proof (find_none _ _ E (r0, c0) Hin0) as Hn.
    rewrite (proj2 (winsAtb_true b symbol r0 c0) Hw0) in Hn.
    discriminate Hn.
Qed.

(** C5.  Priorities of the medium strategy.  If some cell wins at once for
    the program, the program's mark goes on the first such cell of the
    row-major scan.  Otherwise, if some cell wins at once for the human,
    the program's mark goes on the first such cell.  Otherwise the move is
    the one of [makeEasyAIMove], which, when its loop ends, is the
    program's mark on a blank cell.  The first two cases draw no random
    number.  On [O O _ / X X _ / _ _ _] the move of difficulty 2 is
    (0,2). *)
Theorem medium_priority (b : Board) (draws : list nat) :
  ((exists r c, winsAt b AI r c) ->
   exists r c, firstWin b AI r c /\
               makeMediumAIMove b draws = Ok (set b r c AI, draws)) /\
  ((forall r c, ~ winsAt b AI r c) ->
   (exists r c, winsAt b PLAYER r c) ->
   exists r c, firstWin b PLAYER r c /\
               makeMediumAIMove b draws = Ok (set b r c AI, draws)) /\
  ((forall r c, ~ winsAt b AI r c) ->
   (forall r c, ~ winsAt b PLAYER r c) ->
   makeMediumAIMove b draws = makeEasyAIMove b draws /\
   forall b' rest, makeEasyAIMove b draws = Ok (b', rest) ->
     exists r c, inBounds r c = true /\ get b r c = BLANK /\
                 b' = set b r c AI) /\
  makeAIMove winOrBlock 2 draws = Ok (set winOrBlock 0 2 AI, draws).
Proof.
  split; [ | split; [ | split]].
  - intros Hex. destruct (firstWin_exists b AI Hex) as [r [c Hf]].
    exists r, c. split; [exact Hf | ].
    unfold makeMediumAIMove. rewrite (tryWinningMove_first b AI r c Hf).
    reflexivity.
  - intros Hno Hex. destruct (firstWin_exists b PLAYER Hex) as [r [c Hf]].
    exists r, c. split; [exact Hf | ].
    unfold makeMediumAIMove. rewrite (tryWinningMove_none b AI Hno).
    rewrite (tryWinningMove_first b PLAYER r c Hf). reflexivity.
  - intros Hno Hno'. split.
    + unfold makeMediumAIMove. rewrite (tryWinningMove_none b AI Hno).
      rewrite (tryWinningMove_none b PLAYER Hno'). reflexivity.
    + intros b' rest He.
      destruct (makeEasyAIMove_places draws (S (length draws)) b b' rest
                  (Nat.lt_succ_diag_r _) He) as [r [c [Hin [Hb Hs]]]].
      exists r, c. repeat split; assumption.
  - reflexivity.
Qed.

Lemma medium_priority_witness :
  (exists r c, winsAt winOrBlock AI r c) /\
  exists r c, firstWin winOrBlock AI r c /\
              makeMediumAIMove winOrBlock [] = Ok (set winOrBlock r c AI, []).
Proof.
  assert (H : exists r c, winsAt winOrBlock AI r c).
  { exists 0, 2. split; reflexivity. }
  split; [exact H | ].
  exact (proj1 (medium_priority winOrBlock []) H).
Defined.

(** C6.  On every position of a match of alternating legal play from the
    empty board, the human and the program do not both have a completed
    line, and testing the eight lines in any order gives the answer of
    [checkWinner]. *)
Theorem winner_unique (s : Board * bool) :
  reachable anyMove s ->
  ~ (hasLine (fst s) PLAYER /\ hasLine (fst s) AI) /\
  forall ls, Permutation ls sourceOrder ->
             firstWinner (fst s) ls = checkWinner (fst s).
Proof.
  intros Hr. destruct (oneWinner_reachable s Hr) as [m Hm]. split.
  - intros [[l1 [Hl1 H1]] [l2 [Hl2 H2]]].
    pose proof (Hm l1 _ Hl1 H1) as E1. pose proof (Hm l2 _ Hl2 H2) as E2.
    rewrite <- E2 in E1. discriminate E1.
  - intros ls Hperm. rewrite checkWinner_firstWinner.
    apply (firstWinner_order (fst s) m sourceOrder ls Hm).
    intros l. split; intros Hl.
    + eapply Permutation_in; [apply Permutation_sym; exact Hperm | exact Hl].
    + eapply Permutation_in; [exact Hperm | exact Hl].
Qed.

Lemma winner_unique_witness :
  reachable anyMove (antiDiagonalWon, true) /\
  hasLine antiDiagonalWon AI /\
  ~ (hasLine antiDiagonalWon PLAYER /\ hasLine antiDiagonalWon AI) /\
  forall ls, Permutation ls sourceOrder ->
             firstWinner antiDiagonalWon ls = checkWinner antiDiagonalWon.
Proof.
  assert (Hr : reachable anyMove (antiDiagonalWon, true)).
  { exists true.
    pose (b1 := set emptyBoard 0 0 PLAYER). pose (b2 := set b1 1 1 AI).
    pose (b3 := set b2 0 1 PLAYER). pose (b4 := set b3 0 2 AI).
    pose (b5 := set b4 1 0 PLAYER).
    apply (plays_on _ _ (b5, false));
      [ | apply (ply_ai anyMove b5 antiDiagonalWon); [reflexivity | ];
          exists 2, 0; repeat split].
    apply (plays_on _ _ (b4, true));
      [ | exact (ply_player anyMove b4 1 0 eq_refl eq_refl eq_refl)].
    apply (plays_on _ _ (b3, false));
      [ | apply (ply_ai anyMove b3 b4); [reflexivity | ];
          exists 0, 2; repeat split].
    apply (plays_on _ _ (b2, true));
      [ | exact (ply_player anyMove b2 0 1 eq_refl eq_refl eq_refl)].
    apply (plays_on _ _ (b1, false));
      [ | apply (ply_ai anyMove b1 b2); [reflexivity | ];
          exists 1, 1; repeat split].
    apply (plays_on _ _ (emptyBoard, true));
      [ | exact (ply_player anyMove emptyBoard 0 0 eq_refl eq_refl eq_refl)].
    apply plays_here. }
  split; [exact Hr | ]. split.
  - exists ((0, 2), (1, 1), (2, 0)). split; [ | reflexivity].
    unfold sourceOrder. simpl. tauto.
  - exact (winner_unique (antiDiagonalWon, true) Hr).
Defined.

(** C7.  The final write of [makeHardAIMove].  On a board with a blank
    cell the search ends with [bestRow], [bestCol] inside the array and on
    a cell that is blank, and the final write succeeds.  On a board without
    a blank cell the search ends with the initial (-1, -1), and the final
    write falls outside the array. *)
Theorem hard_write_in_bounds (b : Board) :
  ((0 < emptyCount b)%nat ->
   exists best,
     hardSearch b = Ok (best, b) /\
     inBounds (bestRow best) (bestCol best) = true /\
     get b (bestRow best) (bestCol best) = BLANK /\
     makeHardAIMove b = Ok (set b (bestRow best) (bestCol best) AI)) /\
  (emptyCount b = 0%nat ->
   hardSearch b = Ok (mkBest (-1000) (-1) (-1), b) /\
   makeHardAIMove b = Fault).
Proof.
  split.
  - intros Hpos.
    assert (Hd : isDraw b = false).
    { destruct (isDraw b) eqn:E; [ | reflexivity].
      apply isDraw_emptyCount in E. lia. }
    destruct (makeHardAIMove_spec b Hd) as [r [c [Hs [Hmv [Hin [Hb _]]]]]].
    exists (mkBest (moveScore b (r, c)) r c). simpl. tauto.
  - intros Hz. apply isDraw_emptyCount in Hz.
    pose proof (hardSearch_full b Hz) as Hs. split; [exact Hs | ].
    unfold makeHardAIMove. rewrite Hs. reflexivity.
Qed.

Lemma hard_write_in_bounds_witness :
  ((0 < emptyCount winOrBlock)%nat /\
   exists best,
     hardSearch winOrBlock = Ok (best, winOrBlock) /\
     inBounds (bestRow best) (bestCol best) = true /\
     get winOrBlock (bestRow best) (bestCol best) = BLANK /\
     makeHardAIMove winOrBlock
     = Ok (set winOrBlock (bestRow best) (bestCol best) AI)) /\
  (emptyCount fullDrawn = 0%nat /\
   hardSearch fullDrawn = Ok (mkBest (-1000) (-1) (-1), fullDrawn) /\
   makeHardAIMove fullDrawn = Fault).
Proof.
  split.
  - assert (H : (0 < emptyCount winOrBlock)%nat) by (vm_compute; lia).
    split; [exact H | ].
    exact (proj1 (hard_write_in_bounds winOrBlock) H).
  - split; [reflexivity | ].
    exact (proj2 (hard_write_in_bounds fullDrawn) eq_refl).
Defined.

(** C8.  [minimax] terminates.  Every board on which the loop calls
    [minimax] again has strictly fewer blank cells than the board of the
    caller; a board without a blank cell is a draw for [isDraw] and is
    answered without a further call; and a nesting depth of one more than
    the number of blank cells is enough for [minimax] to return. *)
Theorem minimax_terminates (b : Board) (isMaximizing : bool) :
  (forall mark b', mark <> BLANK -> In b' (trialBoards b mark) ->
                   (emptyCount b' < emptyCount b)%nat) /\
  (emptyCount b = 0%nat ->
   isDraw b = true /\
   forall fuel, minimax_fuel (S fuel) b isMaximizing = Ok (evaluate b, b)) /\
  (forall fuel, (emptyCount b < fuel)%nat ->
     exists v, minimax_fuel fuel b isMaximizing = Ok (v, b)).
Proof.
  split; [ | split].
  - intros mark b' Hm Hin. apply trialBoards_smaller with mark; assumption.
  - intros Hz. apply isDraw_emptyCount in Hz. split; [exact Hz | ].
    intros fuel. rewrite minimax_fuel_S, Hz, !orb_true_r. reflexivity.
  - intros fuel Hlt.
    destruct (minimax_fuel_total fuel b isMaximizing Hlt) as [v [Hv _]].
    exists v; exact Hv.
Qed.

Lemma minimax_terminates_witness :
  (emptyCount (set winOrBlock 0 2 AI) < emptyCount winOrBlock)%nat /\
  (isDraw fullDrawn = true /\
   minimax_fuel 1 fullDrawn true = Ok (evaluate fullDrawn, fullDrawn)) /\
  exists v, minimax_fuel 6 winOrBlock true = Ok (v, winOrBlock).
Proof.
  split; [ | split].
  - apply (proj1 (minimax_terminates winOrBlock true) AI).
    + discriminate.
    + simpl. left. reflexivity.
  - destruct (proj1 (proj2 (minimax_terminates fullDrawn true)) eq_refl)
      as [Hd Hm].
    split; [exact Hd | exact (Hm 0%nat)].
  - apply (proj2 (proj2 (minimax_terminates winOrBlock true)) 6%nat).
    vm_compute. lia.
Defined.

(** C9.  Scoring symmetry.  On a board on which [checkWinner] reports the
    human, [evaluate] is -10; on the mirrored board [checkWinner] reports
    the program and [evaluate] is +10, the exact negation. *)
Theorem evaluate_mirror (b : Board) :
  checkWinner b = PLAYER ->
  evaluate b = -10 /\
  checkWinner (mirror b) = AI /\
  evaluate (mirror b) = 10 /\
  evaluate b = - evaluate (mirror b).
Proof.
  intros Hw. unfold evaluate. rewrite checkWinner_mirror, Hw.
  repeat split; reflexivity.
Qed.

Lemma evaluate_mirror_witness :
  checkWinner topRowWon = PLAYER /\
  evaluate topRowWon = -10 /\
  checkWinner (mirror topRowWon) = AI /\
  evaluate (mirror topRowWon) = 10 /\
  evaluate topRowWon = - evaluate (mirror topRowWon).
Proof.
  split; [reflexivity | ]. apply (evaluate_mirror topRowWon). reflexivity.
Defined.

(** C10.  For every board and either value of the flag, [minimax] returns,
    and its score is -10, 0 or +10: the initial -1000 and +1000 of the two
    loops are never returned. *)
Theorem minimax_score_range (b : Board) (isMaximizing : bool) :
  exists v,
    minimax b isMaximizing = Ok (v, b) /\ (v = -10 \/ v = 0 \/ v = 10).
Proof. apply minimax_total. Qed.

(** * Further properties *)

(** ** checkWinner and tryWinningMove *)

Lemma hasLine_not_blank (b : Board) (m : ascii) : hasLine b m -> m <> BLANK.
Proof.
  intros [[[p q] s] [_ H]]. apply lineMark_Some in H. tauto.
Qed.

Lemma firstWinner_hasLine (b : Board) (ls : list Line) :
  firstWinner b ls <> BLANK ->
  exists l, In l ls /\ lineMark b l = Some (firstWinner b ls).
Proof.
  induction ls as [ | l ls IH]; simpl; intros H; [congruence | ].
  destruct (lineMark b l) as [x | ] eqn:E.
  - exists l. split; [left; reflexivity | exact E].
  - destruct (IH H) as [l' [Hin Hl']]. exists l'. split; [right | ]; auto.
Qed.

(** X1.  [checkWinner] answers with a character other than the blank
    exactly when some row, column or diagonal holds three equal characters
    that are not blank, and then its answer is the character of such a
    line. *)
Theorem checkWinner_line (b : Board) :
  ((exists m, hasLine b m) <-> checkWinner b <> BLANK) /\
  (checkWinner b <> BLANK -> hasLine b (checkWinner b)).
Proof.
  assert (H2 : checkWinner b <> BLANK -> hasLine b (checkWinner b)).
  { rewrite checkWinner_firstWinner. intros H.
    destruct (firstWinner_hasLine b sourceOrder H) as [l Hl].
    exists l; exact Hl. }
  split; [ | exact H2]. split.
  - intros [m [l [Hin Hl]]] Hw.
    rewrite checkWinner_firstWinner in Hw.
    rewrite (firstWinner_blank b sourceOrder Hw l Hin) in Hl. discriminate Hl.
  - intros H. exists (checkWinner b). apply H2; exact H.
Qed.

Lemma checkWinner_line_witness :
  checkWinner topRowWon <> BLANK /\ hasLine topRowWon (checkWinner topRowWon).
Proof.
  assert (H : checkWinner topRowWon <> BLANK) by discriminate.
  split; [exact H | exact (proj2 (checkWinner_line topRowWon) H)].
Defined.

Lemma tryWinningMove_eq (b : Board) (symbol : ascii) :
  tryWinningMove b symbol = (find (winsAtb b symbol) cells, b).
Proof.
  unfold tryWinningMove.
  rewrite (surjective_pairing (tryCells cells b symbol)).
  rewrite tryCells_board, tryCells_find. reflexivity.
Qed.

(** X2.  [tryWinningMove] answers [true] with a cell exactly when that cell
    is the first cell of the row-major scan on which the symbol wins at
    once, and [false] exactly when no cell wins at once. *)
Theorem tryWinningMove_iff (b : Board) (symbol : ascii) :
  (forall r c, tryWinningMove b symbol = (Some (r, c), b) <->
               firstWin b symbol r c) /\
  (tryWinningMove b symbol = (None, b) <->
   forall r c, ~ winsAt b symbol r c).
Proof.
  split.
  - intros r c. split; [ | apply tryWinningMove_first].
    rewrite tryWinningMove_eq. intros H.
    pose proof (f_equal fst H) as E. cbn [fst] in E.
    pose proof (find_some _ _ E) as [Hin Hw]. split.
    + apply winsAtb_true; exact Hw.
    + intros r' c' Hw'.
      apply (find_first _ _ _ cells_sorted E (r', c')).
      * apply in_cells. destruct Hw' as [Hb _].
        eapply get_blank_inBounds; eassumption.
      * apply winsAtb_true; exact Hw'.
  - split; [ | apply tryWinningMove_none].
    rewrite tryWinningMove_eq. intros H r c Hw.
    pose proof (f_equal fst H) as E. cbn [fst] in E.
    assert (Hin : In (r, c) cells).
    { apply in_cells. destruct Hw as [Hb _].
      eapply get_blank_inBounds; eassumption. }
    pose proof (find_none _ _ E (r, c) Hin) as Hn.
    rewrite (proj2 (winsAtb_true b symbol r c) Hw) in Hn. discriminate Hn.
Qed.

(** ** makeEasyAIMove *)

Lemma full_no_blank (b : Board) (r c : Z) :
  emptyCount b = 0%nat -> Ascii.eqb (get b r c) BLANK = false.
Proof.
  intros Hz. destruct (Ascii.eqb_spec (get b r c) BLANK) as [E | ];
    [ | reflexivity].
  exfalso. apply (proj1 (emptyCount_zero b) Hz r c); [ | exact E].
  eapply get_blank_inBounds; exact E.
Qed.

Lemma makeEasyAIMove_full_aux (b : Board) (n : nat) :
  emptyCount b = 0%nat ->
  forall draws, (List.length draws < n)%nat ->
                makeEasyAIMove b draws = OutOfFuel.
Proof.
  intros Hz. induction n as [ | n IH]; intros draws Hlen; [lia | ].
  destruct draws as [ | x [ | y draws]]; try reflexivity.
  simpl. rewrite (full_no_blank b _ _ Hz). simpl.
  apply IH. simpl in Hlen. lia.
Qed.

(** X3.  On a board without a blank cell the loop of [makeEasyAIMove] never
    ends, whatever [rand()] returns. *)
Theorem makeEasyAIMove_full (b : Board) (draws : list nat) :
  emptyCount b = 0%nat -> makeEasyAIMove b draws = OutOfFuel.
Proof.
  intros Hz.
  apply (makeEasyAIMove_full_aux b (S (List.length draws)) Hz). lia.
Qed.

Lemma makeEasyAIMove_full_witness :
  emptyCount fullDrawn = 0%nat /\
  makeEasyAIMove fullDrawn [0; 1; 2; 2]%nat = OutOfFuel.
Proof.
  split; [reflexivity | ]. apply makeEasyAIMove_full. reflexivity.
Defined.

Lemma makeEasyAIMove_hit_aux (b : Board) (x y : nat) (rest : list nat)
      (n : nat) :
  get b (Z.rem (Z.of_nat x) SIZE) (Z.rem (Z.of_nat y) SIZE) = BLANK ->
  forall pre, (List.length pre < n)%nat -> allTaken b pre = true ->
    makeEasyAIMove b (pre ++ x :: y :: rest) =
    Ok (set b (Z.rem (Z.of_nat x) SIZE) (Z.rem (Z.of_nat y) SIZE) AI, rest).
Proof.
  intros Hb. induction n as [ | n IH]; intros pre Hlen Hpre; [lia | ].
  destruct pre as [ | x' [ | y' pre]]; try discriminate Hpre.
  - simpl. rewrite Hb. reflexivity.
  - simpl in Hpre. apply andb_true_iff in Hpre. destruct Hpre as [Ht Hpre].
    simpl. rewrite Ht. apply IH; [simpl in Hlen; lia | exact Hpre].
Qed.

(** X4.  [makeEasyAIMove] takes the values of [rand()] two at a time and
    puts the program's mark on the cell of the first pair that lands on a
    blank cell; the pairs before it, which land on taken cells, are used
    up and nothing else is. *)
Theorem makeEasyAIMove_first_hit (b : Board) (pre : list nat) (x y : nat)
        (rest : list nat) :
  allTaken b pre = true ->
  get b (Z.rem (Z.of_nat x) SIZE) (Z.rem (Z.of_nat y) SIZE) = BLANK ->
  makeEasyAIMove b (pre ++ x :: y :: rest) =
  Ok (set b (Z.rem (Z.of_nat x) SIZE) (Z.rem (Z.of_nat y) SIZE) AI, rest).
Proof.
  intros Hpre Hb.
  apply (makeEasyAIMove_hit_aux b x y rest (S (List.length pre)) Hb);
    [lia | exact Hpre].
Qed.

Lemma makeEasyAIMove_first_hit_witness :
  makeEasyAIMove winOrBlock ([3; 4] ++ 5 :: 7 :: [9])%nat =
  Ok (set winOrBlock (Z.rem (Z.of_nat 5) SIZE) (Z.rem (Z.of_nat 7) SIZE) AI,
      [9]%nat).
Proof.
  apply (makeEasyAIMove_first_hit winOrBlock [3; 4]%nat 5 7 [9]%nat);
    reflexivity.
Defined.

(** ** makeMediumAIMove and makeAIMove *)

Lemma find_wins_blank (b : Board) (symbol : ascii) (r c : Z) :
  find (winsAtb b symbol) cells = Some (r, c) ->
  inBounds r c = true /\ winsAt b symbol r c.
Proof.
  intros E. pose proof (find_some _ _ E) as [Hin Hw].
  split; [apply in_cells; exact Hin | apply winsAtb_true; exact Hw].
Qed.

Lemma makeEasyAIMove_not_fault (b : Board) (n : nat) :
  forall draws, (List.length draws < n)%nat ->
                makeEasyAIMove b draws <> Fault.
Proof.
  induction n as [ | n IH]; intros draws Hlen; [lia | ].
  destruct draws as [ | x [ | y draws]]; try discriminate.
  simpl.
  destruct (negb (Ascii.eqb (get b (Z.rem (Z.of_nat x) SIZE)
                                 (Z.rem (Z.of_nat y) SIZE)) BLANK));
    [ | discriminate].
  apply IH. simpl in Hlen. lia.
Qed.

Lemma makeEasyAIMove_rest (b : Board) (n : nat) :
  forall draws b' rest,
    (List.length draws < n)%nat ->
    makeEasyAIMove b draws = Ok (b', rest) ->
    exists used, draws = used ++ rest.
Proof.
  induction n as [ | n IH]; intros draws b' rest Hlen H; [lia | ].
  destruct draws as [ | x [ | y draws]]; try discriminate H.
  simpl in H.
  destruct (negb (Ascii.eqb (get b (Z.rem (Z.of_nat x) SIZE)
                                 (Z.rem (Z.of_nat y) SIZE)) BLANK)).
  - destruct (IH draws b' rest) as [used Hu];
      [simpl in Hlen; lia | exact H | ].
    exists (x :: y :: used). simpl. rewrite Hu. reflexivity.
  - inversion H; subst. exists [x; y]. reflexivity.
Qed.

Lemma makeMediumAIMove_cases (b : Board) (draws : list nat) :
  makeMediumAIMove b draws =
  match find (winsAtb b AI) cells with
  | Some (r, c) => Ok (set b r c AI, draws)
  | None =>
    match find (winsAtb b PLAYER) cells with
    | Some (r, c) => Ok (set b r c AI, draws)
    | None => makeEasyAIMove b draws
    end
  end.
Proof.
  unfold makeMediumAIMove. rewrite tryWinningMove_eq.
  destruct (find (winsAtb b AI) cells) as [[r c] | ]; [reflexivity | ].
  rewrite tryWinningMove_eq.
  destruct (find (winsAtb b PLAYER) cells) as [[r c] | ]; reflexivity.
Qed.

Lemma makeMediumAIMove_legal (b b' : Board) (draws rest : list nat) :
  makeMediumAIMove b draws = Ok (b', rest) ->
  anyMove b b' /\ exists used, draws = used ++ rest.
Proof.
  rewrite makeMediumAIMove_cases.
  destruct (find (winsAtb b AI) cells) as [[r c] | ] eqn:E1.
  - intros H. inversion H; subst.
    destruct (find_wins_blank _ _ _ _ E1) as [Hin [Hb _]].
    split; [exists r, c; auto | exists []; reflexivity].
  - destruct (find (winsAtb b PLAYER) cells) as [[r c] | ] eqn:E2.
    + intros H. inversion H; subst.
      destruct (find_wins_blank _ _ _ _ E2) as [Hin [Hb _]].
      split; [exists r, c; auto | exists []; reflexivity].
    + intros H. split.
      * destruct (makeEasyAIMove_places draws (S (List.length draws)) b b'
                    rest (Nat.lt_succ_diag_r _) H) as [r [c Hrc]].
        exists r, c. exact Hrc.
      * apply (makeEasyAIMove_rest b (S (List.length draws)) draws b' rest);
          [lia | exact H].
Qed.

Lemma makeHardAIMove_legal (b b' : Board) :
  makeHardAIMove b = Ok b' -> anyMove b b'.
Proof.
  intros H. destruct (isDraw b) eqn:Hd.
  - exfalso. pose proof (hardSearch_full b Hd) as Hs.
    unfold makeHardAIMove in H. rewrite Hs in H. discriminate H.
  - destruct (makeHardAIMove_spec b Hd) as [r [c [_ [Hmv [Hin [Hb _]]]]]].
    exists r, c. repeat split; auto. congruence.
Qed.

(** X5.  Whatever the difficulty from 1 to 3, a move that [makeAIMove]
    completes is a legal move: the program's mark on one cell that was
    blank, every other cell as before; and the values of [rand()] left
    over are a tail of the ones supplied.  With any other difficulty
    [makeAIMove] does nothing. *)
Theorem makeAIMove_legal (b b' : Board) (difficulty : Z)
        (draws rest : list nat) :
  makeAIMove b difficulty draws = Ok (b', rest) ->
  (1 <= difficulty <= 3 ->
   (exists r c, inBounds r c = true /\ get b r c = BLANK /\
                b' = set b r c AI) /\
   exists used, draws = used ++ rest) /\
  (~ 1 <= difficulty <= 3 -> b' = b /\ rest = draws).
Proof.
  intros H.
  destruct difficulty as [ | [ [ p | p | ] | [ p | p | ] | ] | p ];
    simpl in H;
    try (inversion H; subst; split; [intros; lia | intros; split; reflexivity]).
  - (* 3 *)
    split; [ | intros; lia]. intros _.
    destruct (makeHardAIMove b) as [b1 | | ] eqn:E; try discriminate H.
    inversion H; subst. split.
    + apply makeHardAIMove_legal; exact E.
    + exists []; reflexivity.
  - (* 2 *)
    split; [ | intros; lia]. intros _.
    apply makeMediumAIMove_legal; exact H.
  - (* 1 *)
    split; [ | intros; lia]. intros _. split.
    + apply (makeEasyAIMove_places draws (S (List.length draws)) b b' rest
               (Nat.lt_succ_diag_r _) H).
    + apply (makeEasyAIMove_rest b (S (List.length draws)) draws b' rest);
        [lia | exact H].
Qed.

Lemma makeAIMove_legal_witness :
  makeAIMove winOrBlock 2 [4; 5]%nat = Ok (set winOrBlock 0 2 AI, [4; 5]%nat)
  /\ (exists r c, inBounds r c = true /\ get winOrBlock r c = BLANK /\
                  set winOrBlock 0 2 AI = set winOrBlock r c AI)
  /\ exists used, [4; 5]%nat = used ++ [4; 5]%nat.
Proof.
  assert (H : makeAIMove winOrBlock 2 [4; 5]%nat
              = Ok (set winOrBlock 0 2 AI, [4; 5]%nat)) by reflexivity.
  split; [exact H | ].
  apply (proj1 (makeAIMove_legal _ _ _ _ _ H)). lia.
Defined.

Lemma makeAIMove_Fault_iff (b : Board) (difficulty : Z) (draws : list nat) :
  makeAIMove b difficulty draws = Fault <->
  difficulty = 3 /\ emptyCount b = 0%nat.
Proof.
  split.
  - intros H.
    destruct difficulty as [ | [ [ p | p | ] | [ p | p | ] | ] | p ];
      simpl in H; try discriminate H.
    + split; [reflexivity | ].
      destruct (isDraw b) eqn:Hd; [apply isDraw_emptyCount; exact Hd | ].
      destruct (makeHardAIMove_spec b Hd) as [r [c [_ [Hmv _]]]].
      rewrite Hmv in H. discriminate H.
    + exfalso. rewrite makeMediumAIMove_cases in H.
      destruct (find (winsAtb b AI) cells) as [[r c] | ];
        [discriminate H | ].
      destruct (find (winsAtb b PLAYER) cells) as [[r c] | ];
        [discriminate H | ].
      apply (makeEasyAIMove_not_fault b (S (List.length draws)) draws);
        [lia | exact H].
    + exfalso.
      apply (makeEasyAIMove_not_fault b (S (List.length draws)) draws);
        [lia | exact H].
  - intros [-> Hz]. simpl. apply isDraw_emptyCount in Hz.
    unfold makeHardAIMove. rewrite (hardSearch_full b Hz). reflexivity.
Qed.

(** X6.  [makeAIMove] writes outside the array in one situation only:
    difficulty 3 on a board without a blank cell. *)
Theorem makeAIMove_fault (b : Board) (difficulty : Z) (draws : list nat) :
  makeAIMove b difficulty draws = Fault <->
  difficulty = 3 /\ emptyCount b = 0%nat.
Proof. apply makeAIMove_Fault_iff. Qed.

(** X7.  When some cell wins at once for the program, [makeMediumAIMove]
    wins the game: the board it leaves has the program as the winner, and
    no value of [rand()] is used. *)
Theorem medium_takes_win (b : Board) (draws : list nat) :
  (exists r c, winsAt b AI r c) ->
  exists b', makeMediumAIMove b draws = Ok (b', draws) /\
             checkWinner b' = AI.
Proof.
  intros [r0 [c0 Hw0]]. rewrite makeMediumAIMove_cases.
  destruct (find (winsAtb b AI) cells) as [[r c] | ] eqn:E.
  - destruct (find_wins_blank _ _ _ _ E) as [_ [_ Hw]].
    exists (set b r c AI). split; [reflexivity | exact Hw].
  - exfalso.
    assert (Hin : In (r0, c0) cells).
    { apply in_cells. destruct Hw0 as [Hb _].
      eapply get_blank_inBounds; eassumption. }
    pose proof (find_none _ _ E (r0, c0) Hin) as Hn.
    rewrite (proj2 (winsAtb_true b AI r0 c0) Hw0) in Hn. discriminate Hn.
Qed.

Lemma medium_takes_win_witness :
  exists b', makeMediumAIMove winOrBlock [] = Ok (b', []) /\
             checkWinner b' = AI.
Proof.
  apply medium_takes_win. exists 0, 2. split; reflexivity.
Defined.

(** A completed line has no blank cell. *)
Lemma lineMark_no_blank (b : Board) (p q s : Z * Z) (x : ascii) (r c : Z) :
  lineMark b (p, q, s) = Some x -> get b r c = BLANK ->
  p <> (r, c) /\ q <> (r, c) /\ s <> (r, c).
Proof.
  intros H Hb. apply lineMark_Some in H. destruct H as [Hx [Hp [Hq Hs]]].
  repeat split; intros ->; simpl in *; congruence.
Qed.

Lemma lineMark_set_off (b : Board) (p q s : Z * Z) (r c : Z) (m : ascii) :
  p <> (r, c) -> q <> (r, c) -> s <> (r, c) ->
  lineMark (set b r c m) (p, q, s) = lineMark b (p, q, s).
Proof.
  intros Hp Hq Hs. unfold lineMark.
  destruct p as [pr pc], q as [qr qc], s as [sr sc]. simpl.
  rewrite !get_set_other by congruence. reflexivity.
Qed.

(** A mark of the program on a blank cell does not make the human the
    winner. *)
Lemma firstWinner_set_AI (b : Board) (r c : Z) (ls : list Line) :
  inBounds r c = true -> get b r c = BLANK ->
  firstWinner (set b r c AI) ls = PLAYER -> firstWinner b ls = PLAYER.
Proof.
  intros Hin Hb. induction ls as [ | [[p q] s] ls IH];
    cbn [firstWinner]; [trivial | ].
  destruct (lineMark (set b r c AI) (p, q, s)) as [x | ] eqn:E2; intros H.
  - subst x. pose proof E2 as E2'. apply lineMark_Some in E2'.
    destruct E2' as [_ [Hp [Hq Hs]]].
    assert (Hoff : p <> (r, c) /\ q <> (r, c) /\ s <> (r, c)).
    { repeat split; intros ->; simpl in *;
        rewrite (get_set_same b r c AI Hin) in *; discriminate. }
    destruct Hoff as [H1 [H2 H3]].
    rewrite lineMark_set_off in E2 by assumption. rewrite E2. reflexivity.
  - destruct (lineMark b (p, q, s)) as [y | ] eqn:E1; [ | apply IH; exact H].
    exfalso. destruct (lineMark_no_blank b p q s y r c E1 Hb) as [H1 [H2 H3]].
    rewrite lineMark_set_off in E2 by assumption. congruence.
Qed.

Lemma set_set_swap (b : Board) (r c r' c' : Z) (x y : ascii) :
  (r, c) <> (r', c') ->
  set (set b r c x) r' c' y = set (set b r' c' y) r c x.
Proof.
  intros Hne. open_board b.
  zcase r; zcase c; zcase r'; zcase c'; try reflexivity; congruence.
Qed.

(** X8.  A block by [makeMediumAIMove] opens no new threat: when the
    program cannot win at once and blocks the human's first winning cell,
    every cell on which the human wins at once afterwards was such a cell
    before, and is not the blocked cell.  In particular a single threat is
    gone after the block. *)
Theorem medium_block (b : Board) (draws : list nat) (r c : Z) :
  (forall r' c', ~ winsAt b AI r' c') ->
  firstWin b PLAYER r c ->
  makeMediumAIMove b draws = Ok (set b r c AI, draws) /\
  forall r' c', winsAt (set b r c AI) PLAYER r' c' ->
                winsAt b PLAYER r' c' /\ (r', c') <> (r, c).
Proof.
  intros Hno Hf. split.
  - unfold makeMediumAIMove. rewrite (tryWinningMove_none b AI Hno).
    rewrite (tryWinningMove_first b PLAYER r c Hf). reflexivity.
  - destruct Hf as [[Hb _] _].
    pose proof (get_blank_inBounds b r c Hb) as Hin.
    intros r' c' [Hb' Hw'].
    assert (Hne : (r', c') <> (r, c)).
    { intros E. inversion E; subst.
      rewrite (get_set_same b r c AI Hin) in Hb'. discriminate Hb'. }
    split; [ | exact Hne].
    rewrite get_set_other in Hb' by congruence.
    split; [exact Hb' | ].
    rewrite set_set_swap in Hw' by congruence.
    rewrite checkWinner_firstWinner in *.
    apply (firstWinner_set_AI (set b r' c' PLAYER) r c sourceOrder Hin);
      [ | exact Hw'].
    rewrite get_set_other by exact Hne. exact Hb.
Qed.

Lemma medium_block_witness :
  makeMediumAIMove blockMe [] = Ok (set blockMe 0 2 AI, []) /\
  forall r' c', winsAt (set blockMe 0 2 AI) PLAYER r' c' ->
                winsAt blockMe PLAYER r' c' /\ (r', c') <> (0, 2).
Proof.
  apply (medium_block blockMe [] 0 2).
  - intros r' c' [Hb Hw].
    pose proof (get_blank_inBounds _ _ _ Hb) as Hin.
    apply in_cells in Hin. simpl in Hin.
    repeat (destruct Hin as [Hin | Hin];
            [inversion Hin; subst; discriminate | ]).
    exact Hin.
  - split; [split; reflexivity | ].
    intros r' c' [Hb Hw].
    pose proof (get_blank_inBounds _ _ _ Hb) as Hin.
    apply in_cells in Hin. simpl in Hin.
    repeat (destruct Hin as [Hin | Hin];
            [inversion Hin; subst;
             first [discriminate | unfold rowMajor, SIZE; simpl; lia] | ]).
    destruct Hin.
Defined.

(** ** The recurrence of minimax *)

Lemma minimax_fuel_enough (n : nat) (b : Board) (m : bool) :
  (emptyCount b < n)%nat -> minimax_fuel n b m = minimax b m.
Proof.
  intros Hlt. destruct (minimax_total b m) as [v [Hv _]]. rewrite Hv.
  unfold minimax in Hv. apply (minimax_fuel_mono _ _ _ _ Hv). lia.
Qed.

Lemma markOf_not_blank (m : bool) : markOf m <> BLANK.
Proof. destruct m; discriminate. Qed.

Lemma replyScore_minimax (b : Board) (m : bool) (r c : Z) :
  minimax (set b r c (markOf m)) (negb m)
  = Ok (replyScore b m (r, c), set b r c (markOf m)).
Proof.
  unfold replyScore. simpl.
  destruct (minimax_total (set b r c (markOf m)) (negb m)) as [v [-> _]].
  reflexivity.
Qed.

Lemma replyScore_score (b : Board) (m : bool) (rc : Z * Z) :
  gameScore (replyScore b m rc).
Proof.
  unfold replyScore.
  destruct (minimax_total (set b (fst rc) (snd rc) (markOf m)) (negb m))
    as [v [-> Hv]]. exact Hv.
Qed.

(** On a board that is not terminal, [minimax] folds [max] or [min] over
    the scores of the replies, whatever the fuel of the inner calls. *)
Lemma minimax_step (b : Board) (m : bool) :
  terminal b = false ->
  minimax b m =
  Ok (fold_left (if m then Z.max else Z.min)
                (map (replyScore b m) (filter (blankAt b) cells))
                (if m then -1000 else 1000), b).
Proof.
  intros Ht. unfold minimax. rewrite minimax_fuel_S.
  unfold terminal in Ht. rewrite Ht.
  assert (Hinner : forall m' r c, get b r c = BLANK ->
            minimax_fuel (emptyCount b) (set b r c (markOf m')) (negb m')
            = minimax (set b r c (markOf m')) (negb m')).
  { intros m' r c Hb. apply minimax_fuel_enough.
    rewrite (emptyCount_set b r c (markOf m') Hb (markOf_not_blank m')).
    lia. }
  assert (Hmap : forall m',
            map (trial (fun b' => minimax_fuel (emptyCount b) b' (negb m'))
                       (markOf m') b) (filter (blankAt b) cells)
            = map (replyScore b m') (filter (blankAt b) cells)).
  { intros m'. apply map_ext_in. intros [r c] Hin.
    apply filter_In in Hin. destruct Hin as [_ Hb].
    apply blankAt_true in Hb. unfold trial, replyScore. simpl.
    rewrite (Hinner m' r c Hb). reflexivity. }
  destruct m.
  - rewrite scan_fold.
    + exact (f_equal (fun l => Ok (fold_left Z.max l (-1000), b))
                     (Hmap true)).
    + intros r c _ Hb. eexists.
      exact (eq_trans (Hinner true r c Hb) (replyScore_minimax b true r c)).
  - rewrite scan_fold.
    + exact (f_equal (fun l => Ok (fold_left Z.min l 1000, b))
                     (Hmap false)).
    + intros r c _ Hb. eexists.
      exact (eq_trans (Hinner false r c Hb)
                      (replyScore_minimax b false r c)).
Qed.

Lemma fold_max_bounds (l : list Z) :
  forall a,
    a <= fold_left Z.max l a /\
    (forall x, In x l -> x <= fold_left Z.max l a) /\
    (fold_left Z.max l a = a \/ In (fold_left Z.max l a) l).
Proof.
  induction l as [ | y l IH]; intros a; simpl.
  - split; [lia | ]. split; [intros x [] | left; reflexivity].
  - destruct (IH (Z.max a y)) as [H1 [H2 H3]]. split; [lia | ]. split.
    + intros x [<- | Hx]; [lia | apply H2; exact Hx].
    + destruct H3 as [H3 | H3]; [ | right; right; exact H3].
      rewrite H3. destruct (Z.max_spec a y) as [[_ ->] | [_ ->]]; auto.
Qed.

Lemma fold_min_bounds (l : list Z) :
  forall a,
    fold_left Z.min l a <= a /\
    (forall x, In x l -> fold_left Z.min l a <= x) /\
    (fold_left Z.min l a = a \/ In (fold_left Z.min l a) l).
Proof.
  induction l as [ | y l IH]; intros a; simpl.
  - split; [lia | ]. split; [intros x [] | left; reflexivity].
  - destruct (IH (Z.min a y)) as [H1 [H2 H3]]. split; [lia | ]. split.
    + intros x [<- | Hx]; [lia | apply H2; exact Hx].
    + destruct H3 as [H3 | H3]; [ | right; right; exact H3].
      rewrite H3. destruct (Z.min_spec a y) as [[_ ->] | [_ ->]]; auto.
Qed.

Lemma terminal_false_isDraw (b : Board) :
  terminal b = false -> isDraw b = false.
Proof. unfold terminal. intros H. apply orb_false_iff in H. tauto. Qed.

Lemma minimax_terminal (b : Board) (m : bool) :
  terminal b = true -> minimax b m = Ok (evaluate b, b).
Proof.
  intros Ht. unfold minimax. rewrite minimax_fuel_S.
  unfold terminal in Ht. rewrite Ht. reflexivity.
Qed.

(** The value of a board that is not terminal is attained by a reply and
    bounds all replies. *)
Lemma minimax_extremum (b : Board) (m : bool) :
  terminal b = false ->
  (exists r c, get b r c = BLANK /\
               replyScore b m (r, c) = scoreOf (minimax b m)) /\
  (forall r c, get b r c = BLANK ->
     if m then replyScore b m (r, c) <= scoreOf (minimax b m)
     else scoreOf (minimax b m) <= replyScore b m (r, c)).
Proof.
  intros Ht. rewrite (minimax_step b m Ht). simpl.
  pose proof (isDraw_false_blank b (terminal_false_isDraw b Ht)) as Hne.
  set (l := filter (blankAt b) cells) in *.
  assert (Hin : forall r c, get b r c = BLANK ->
                            In (replyScore b m (r, c)) (map (replyScore b m) l)).
  { intros r c Hb. apply in_map. apply filter_In. split.
    - apply in_cells. eapply get_blank_inBounds; eassumption.
    - apply blankAt_true; exact Hb. }
  assert (Hfrom : forall v, In v (map (replyScore b m) l) ->
            exists r c, get b r c = BLANK /\ replyScore b m (r, c) = v).
  { intros v Hv. apply in_map_iff in Hv. destruct Hv as [[r c] [E Hl]].
    apply filter_In in Hl. destruct Hl as [_ Hb]. apply blankAt_true in Hb.
    exists r, c. split; assumption. }
  assert (Hx : exists x, In x l).
  { destruct l as [ | x l']; [congruence | exists x; left; reflexivity]. }
  destruct Hx as [x Hx].
  pose proof (replyScore_score b m x) as Hsx.
  pose proof (in_map (replyScore b m) l x Hx) as Hmx.
  destruct m.
  - destruct (fold_max_bounds (map (replyScore b true) l) (-1000))
      as [_ [H2 H3]]. split.
    + destruct H3 as [H3 | H3]; [ | apply Hfrom; exact H3].
      exfalso. specialize (H2 _ Hmx). unfold gameScore in Hsx. lia.
    + intros r c Hb. apply H2. apply Hin; exact Hb.
  - destruct (fold_min_bounds (map (replyScore b false) l) 1000)
      as [_ [H2 H3]]. split.
    + destruct H3 as [H3 | H3]; [ | apply Hfrom; exact H3].
      exfalso. specialize (H2 _ Hmx). unfold gameScore in Hsx. lia.
    + intros r c Hb. apply H2. apply Hin; exact Hb.
Qed.

(** X9.  The recurrence of [minimax], free of the nesting depth.  On a
    won or full board the score is the one of [evaluate].  On any other
    board the score with [isMaximizing] is the greatest, and without it the
    least, of the scores [minimax] gives, with the flag flipped, to the
    boards with one more mark of the side to move; some blank cell attains
    it. *)
Theorem minimax_recurrence (b : Board) (isMaximizing : bool) :
  (terminal b = true -> minimax b isMaximizing = Ok (evaluate b, b)) /\
  (terminal b = false ->
   (exists r c, get b r c = BLANK /\
                replyScore b isMaximizing (r, c)
                = scoreOf (minimax b isMaximizing)) /\
   (forall r c, get b r c = BLANK ->
      if isMaximizing
      then replyScore b isMaximizing (r, c) <= scoreOf (minimax b isMaximizing)
      else scoreOf (minimax b isMaximizing)
           <= replyScore b isMaximizing (r, c))).
Proof.
  split; [apply minimax_terminal | apply minimax_extremum].
Qed.

Lemma minimax_recurrence_witness :
  minimax fullDrawn true = Ok (evaluate fullDrawn, fullDrawn) /\
  exists r c, get winOrBlock r c = BLANK /\
              replyScore winOrBlock true (r, c)
              = scoreOf (minimax winOrBlock true).
Proof.
  split.
  - apply (proj1 (minimax_recurrence fullDrawn true)). reflexivity.
  - apply (proj2 (minimax_recurrence winOrBlock true)). reflexivity.
Defined.

Lemma hard_move_value (b : Board) :
  terminal b = false ->
  exists r c,
    makeHardAIMove b = Ok (set b r c AI) /\
    get b r c = BLANK /\
    scoreOf (minimax (set b r c AI) false) = scoreOf (minimax b true).
Proof.
  intros Ht.
  destruct (makeHardAIMove_spec b (terminal_false_isDraw b Ht))
    as [r [c [_ [Hmv [_ [Hb Hbest]]]]]].
  exists r, c. split; [exact Hmv | ]. split; [exact Hb | ].
  destruct (minimax_extremum b true Ht) as [[r0 [c0 [Hb0 Hv0]]] Hle].
  specialize (Hle r c Hb). simpl in Hle.
  destruct (Hbest r0 c0 Hb0) as [Hge _].
  change (moveScore b (r, c) = scoreOf (minimax b true)).
  change (replyScore b true (r, c)) with (moveScore b (r, c)) in Hle.
  change (replyScore b true (r0, c0)) with (moveScore b (r0, c0)) in Hv0.
  lia.
Qed.

(** X10.  On a board that is not terminal, the cell [makeHardAIMove] marks
    attains the score [minimax] gives the board with the program to move:
    the move is a best move for that score. *)
Theorem hard_move_attains_value (b : Board) :
  terminal b = false ->
  exists r c,
    makeHardAIMove b = Ok (set b r c AI) /\
    get b r c = BLANK /\
    scoreOf (minimax (set b r c AI) false) = scoreOf (minimax b true).
Proof. apply hard_move_value. Qed.

Lemma hard_move_attains_value_witness :
  exists r c,
    makeHardAIMove forked = Ok (set forked r c AI) /\
    get forked r c = BLANK /\
    scoreOf (minimax (set forked r c AI) false) = scoreOf (minimax forked true).
Proof. apply hard_move_attains_value. reflexivity. Defined.

(** ** Exchanging the marks in the search *)

Lemma evaluate_mirror_opp (b : Board) : evaluate (mirror b) = - evaluate b.
Proof.
  unfold evaluate. cbv zeta. rewrite checkWinner_mirror.
  generalize (checkWinner b) as w. intros w. unfold swapMark.
  destruct (Ascii.eqb_spec w PLAYER) as [E1 | H1];
    [subst w; reflexivity | ].
  destruct (Ascii.eqb_spec w AI) as [E2 | H2];
    [subst w; reflexivity | ].
  apply Ascii.eqb_neq in H1, H2. rewrite H1, H2. reflexivity.
Qed.

Lemma blankAt_mirror (b : Board) (rc : Z * Z) :
  blankAt (mirror b) rc = blankAt b rc.
Proof. unfold blankAt. rewrite get_mirror. apply swapMark_blank. Qed.

Lemma emptyCount_mirror (b : Board) : emptyCount (mirror b) = emptyCount b.
Proof.
  unfold emptyCount. f_equal. apply filter_ext. apply blankAt_mirror.
Qed.

Lemma isDraw_mirror (b : Board) : isDraw (mirror b) = isDraw b.
Proof.
  apply Bool.eq_true_iff_eq.
  rewrite !isDraw_emptyCount, emptyCount_mirror. reflexivity.
Qed.

Lemma terminal_mirror (b : Board) : terminal (mirror b) = terminal b.
Proof.
  unfold terminal. rewrite evaluate_mirror_opp, isDraw_mirror.
  pose proof (evaluate_score b) as H. unfold gameScore in H.
  destruct H as [-> | [-> | ->]]; reflexivity.
Qed.

Lemma set_mirror (b : Board) (r c : Z) (x : ascii) :
  set (mirror b) r c (swapMark x) = mirror (set b r c x).
Proof. open_board b. zcase r; zcase c; reflexivity. Qed.

Lemma markOf_swap (m : bool) : markOf (negb m) = swapMark (markOf m).
Proof. destruct m; reflexivity. Qed.

Lemma fold_max_opp (l : list Z) :
  forall a, fold_left Z.max (map Z.opp l) (- a) = - fold_left Z.min l a.
Proof.
  induction l as [ | x l IH]; intros a; simpl; [reflexivity | ].
  rewrite <- IH. f_equal. lia.
Qed.

Lemma fold_min_opp (l : list Z) :
  forall a, fold_left Z.min (map Z.opp l) (- a) = - fold_left Z.max l a.
Proof.
  induction l as [ | x l IH]; intros a; simpl; [reflexivity | ].
  rewrite <- IH. f_equal. lia.
Qed.

Lemma minimax_mirror_aux (n : nat) :
  forall b m, (emptyCount b < n)%nat ->
    scoreOf (minimax (mirror b) (negb m)) = - scoreOf (minimax b m).
Proof.
  induction n as [ | n IH]; intros b m Hlt; [lia | ].
  destruct (terminal b) eqn:Ht.
  - rewrite (minimax_terminal b m Ht).
    rewrite (minimax_terminal (mirror b) (negb m))
      by (rewrite terminal_mirror; exact Ht).
    simpl. apply evaluate_mirror_opp.
  - rewrite (minimax_step b m Ht).
    rewrite (minimax_step (mirror b) (negb m))
      by (rewrite terminal_mirror; exact Ht).
    unfold scoreOf.
    rewrite (filter_ext _ _ (blankAt_mirror b)).
    assert (Hmap : map (replyScore (mirror b) (negb m))
                       (filter (blankAt b) cells)
                   = map Z.opp (map (replyScore b m)
                                    (filter (blankAt b) cells))).
    { rewrite map_map. apply map_ext_in. intros [r c] Hin.
      apply filter_In in Hin. destruct Hin as [_ Hb].
      apply blankAt_true in Hb. unfold replyScore. simpl.
      rewrite markOf_swap, set_mirror. apply IH.
      rewrite (emptyCount_set b r c (markOf m) Hb (markOf_not_blank m))
        in Hlt. lia. }
    rewrite Hmap. destruct m.
    + exact (fold_min_opp _ (-1000)).
    + exact (fold_max_opp _ 1000).
Qed.

(** X11.  The search is symmetric in the two marks: on the board with the
    marks exchanged and the flag flipped, [minimax] returns the negated
    score. *)
Theorem minimax_mirror (b : Board) (isMaximizing : bool) :
  scoreOf (minimax (mirror b) (negb isMaximizing))
  = - scoreOf (minimax b isMaximizing).
Proof. apply (minimax_mirror_aux (S (emptyCount b))). lia. Qed.

(** ** The value of the position during a match on difficulty 3 *)

Lemma gameOver_false_terminal (b : Board) :
  gameOver b = false -> terminal b = false.
Proof.
  unfold gameOver, terminal, evaluate. intros H.
  apply orb_false_iff in H. destruct H as [Hw Hd].
  apply negb_false_iff in Hw. apply Ascii.eqb_eq in Hw.
  rewrite Hw, Hd. reflexivity.
Qed.

Lemma positionValue_ply (s t : Board * bool) :
  ply hardMove s t -> positionValue s <= positionValue t.
Proof.
  intros Hp. destruct Hp as [b r c Hgo Hin Hb | b b' Hgo Hmv];
    unfold positionValue; simpl.
  - destruct (minimax_extremum b false (gameOver_false_terminal b Hgo))
      as [_ Hle]. exact (Hle r c Hb).
  - destruct (hard_move_value b (gameOver_false_terminal b Hgo))
      as [r [c [Hmv' [_ Hv]]]].
    unfold hardMove in Hmv. rewrite Hmv' in Hmv. inversion Hmv; subst.
    lia.
Qed.

Lemma hard_value_monotone_aux (s t : Board * bool) :
  plays hardMove s t -> positionValue s <= positionValue t.
Proof.
  induction 1 as [s | s t u Hst IH Htu]; [lia | ].
  pose proof (positionValue_ply t u Htu). lia.
Qed.

(** X12.  During a match on difficulty 3 the score [minimax] gives the
    position never goes down: the human's move cannot lower it below the
    minimum, and the move of [makeHardAIMove] keeps the maximum. *)
Theorem hard_value_monotone (s t : Board * bool) :
  plays hardMove s t -> positionValue s <= positionValue t.
Proof. apply hard_value_monotone_aux. Qed.

Lemma hard_value_monotone_witness :
  plays hardMove (forked, false) (set (set forked 0 2 AI) 1 2 PLAYER, false)
  /\ positionValue (forked, false)
     <= positionValue (set (set forked 0 2 AI) 1 2 PLAYER, false).
Proof.
  assert (H : plays hardMove (forked, false)
                    (set (set forked 0 2 AI) 1 2 PLAYER, false)).
  { apply (plays_on _ _ (set forked 0 2 AI, true)).
    - apply (plays_on _ _ (forked, false)); [apply plays_here | ].
      apply (ply_ai hardMove forked (set forked 0 2 AI)); [reflexivity | ].
      unfold hardMove. vm_compute. reflexivity.
    - exact (ply_player hardMove (set forked 0 2 AI) 1 2
                        eq_refl eq_refl eq_refl). }
  split; [exact H | exact (hard_value_monotone _ _ H)].
Defined.

Lemma value_not_lost (b : Board) (m : bool) :
  0 <= scoreOf (minimax b m) -> checkWinner b <> PLAYER.
Proof.
  intros Hv Hw.
  assert (He : evaluate b = -10) by (unfold evaluate; rewrite Hw; reflexivity).
  rewrite (minimax_terminal b m) in Hv.
  - simpl in Hv. lia.
  - unfold terminal. rewrite He. reflexivity.
Qed.

(** X13.  From any position, of a match or not, to which [minimax] gives a
    score of 0 or more for the side to move, the human never wins against
    difficulty 3. *)
Theorem hard_holds_any_position (s t : Board * bool) :
  0 <= positionValue s -> plays hardMove s t ->
  checkWinner (fst t) <> PLAYER.
Proof.
  intros Hv Hp. pose proof (hard_value_monotone_aux s t Hp) as Hle.
  apply (value_not_lost (fst t) (negb (snd t))).
  unfold positionValue in *. lia.
Qed.

Lemma hard_holds_any_position_witness :
  0 <= positionValue (winOrBlock, false) /\
  plays hardMove (winOrBlock, false) (set winOrBlock 0 2 AI, true) /\
  checkWinner (fst (set winOrBlock 0 2 AI, true)) <> PLAYER.
Proof.
  assert (Hv : 0 <= positionValue (winOrBlock, false))
    by (vm_compute; discriminate).
  assert (Hp : plays hardMove (winOrBlock, false)
                     (set winOrBlock 0 2 AI, true)).
  { apply (plays_on _ _ (winOrBlock, false)); [apply plays_here | ].
    apply (ply_ai hardMove winOrBlock (set winOrBlock 0 2 AI));
      [reflexivity | ].
    unfold hardMove. vm_compute. reflexivity. }
  split; [exact Hv | ]. split; [exact Hp | ].
  exact (hard_holds_any_position _ _ Hv Hp).
Defined.

(** ** Boards that hold marks only *)

Lemma wellMarked_empty : wellMarked emptyBoard.
Proof. intros r c Hin. left. each_cell Hin; reflexivity. Qed.

Lemma wellMarked_set (b : Board) (r c : Z) (m : ascii) :
  wellMarked b -> m = PLAYER \/ m = AI -> wellMarked (set b r c m).
Proof.
  intros Hb Hm r' c' Hin. rewrite get_set.
  destruct (inBounds r c && (r =? r') && (c =? c'));
    [right; exact Hm | apply Hb; exact Hin].
Qed.

Lemma wellMarked_ply (s t : Board * bool) :
  ply anyMove s t -> wellMarked (fst s) -> wellMarked (fst t).
Proof.
  intros Hp Hs.
  destruct Hp as [b r c Hgo Hin Hb | b b' Hgo [r [c [Hin [Hb ->]]]]];
    simpl in *; apply wellMarked_set; auto.
Qed.

Lemma wellMarked_plays (s t : Board * bool) :
  plays anyMove s t -> wellMarked (fst s) -> wellMarked (fst t).
Proof.
  induction 1 as [s | s t u Hst IH Htu]; intros Hs; [exact Hs | ].
  eapply wellMarked_ply; [exact Htu | apply IH; exact Hs].
Qed.

Lemma hasLine_wellMarked (b : Board) (m : ascii) :
  wellMarked b -> hasLine b m -> m = PLAYER \/ m = AI.
Proof.
  intros Hb [[[p q] s] [Hin Hl]]. apply lineMark_Some in Hl.
  destruct Hl as [Hm [Hp _]].
  assert (Hpin : inBounds (fst p) (snd p) = true).
  { unfold sourceOrder in Hin. simpl in Hin.
    repeat (destruct Hin as [Hin | Hin];
            [inversion Hin; subst; reflexivity | ]). destruct Hin. }
  destruct (Hb _ _ Hpin) as [E | E]; [congruence | ].
  rewrite Hp in E. exact E.
Qed.

(** On such a board the game is over exactly when [minimax] stops. *)
Lemma wellMarked_terminal (b : Board) :
  wellMarked b -> terminal b = gameOver b.
Proof.
  intros Hb. unfold terminal, gameOver, evaluate.
  destruct (Ascii.eqb_spec (checkWinner b) BLANK) as [E | E].
  - rewrite E. reflexivity.
  - assert (H : checkWinner b = PLAYER \/ checkWinner b = AI).
    { apply (hasLine_wellMarked b _ Hb).
      rewrite checkWinner_firstWinner in *.
      destruct (firstWinner_hasLine b sourceOrder E) as [l Hl].
      exists l; exact Hl. }
    destruct H as [-> | ->]; reflexivity.
Qed.

Lemma plays_hard_any (s t : Board * bool) :
  plays hardMove s t -> plays anyMove s t.
Proof. apply plays_incl. exact hardMove_anyMove. Qed.

Lemma winsAt_value (b : Board) (r c : Z) :
  gameOver b = false -> winsAt b AI r c -> positionValue (b, false) = 10.
Proof.
  intros Hgo [Hb Hw]. unfold positionValue. simpl.
  pose proof (gameOver_false_terminal b Hgo) as Ht.
  destruct (minimax_extremum b true Ht) as [_ Hle].
  specialize (Hle r c Hb). simpl in Hle.
  assert (E : replyScore b true (r, c) = 10).
  { unfold replyScore. simpl. rewrite minimax_terminal.
    - simpl. unfold evaluate. rewrite Hw. reflexivity.
    - unfold terminal, evaluate. rewrite Hw. reflexivity. }
  destruct (minimax_total b true) as [v [Hv Hs]].
  rewrite Hv in *. simpl in *. unfold gameScore in Hs. lia.
Qed.

(** X14.  A forced win is kept.  From a position of marks only to which
    [minimax] gives +10 for the side to move, every position at which a
    match on difficulty 3 ends is a win of the program.  A position on
    which the program, to move, can complete a line at once is such a
    position. *)
Theorem hard_converts_win (s t : Board * bool) :
  wellMarked (fst s) ->
  positionValue s = 10 \/
  (snd s = false /\ gameOver (fst s) = false /\
   exists r c, winsAt (fst s) AI r c) ->
  plays hardMove s t -> gameOver (fst t) = true ->
  checkWinner (fst t) = AI.
Proof.
  intros Hwm Hv Hp Hgo.
  assert (Hs : positionValue s = 10).
  { destruct Hv as [Hv | [Hturn [Hgo0 [r [c Hw]]]]]; [exact Hv | ].
    destruct s as [b pf]. simpl in *. subst pf.
    apply (winsAt_value b r c Hgo0 Hw). }
  pose proof (hard_value_monotone_aux s t Hp) as Hle.
  pose proof (wellMarked_plays s t (plays_hard_any s t Hp) Hwm) as Hwt.
  rewrite <- (wellMarked_terminal _ Hwt) in Hgo.
  rewrite Hs in Hle. unfold positionValue in Hle.
  rewrite (minimax_terminal _ _ Hgo) in Hle. simpl in Hle.
  unfold evaluate in Hle.
  destruct (Ascii.eqb_spec (checkWinner (fst t)) AI) as [E | _];
    [exact E | ].
  destruct (Ascii.eqb (checkWinner (fst t)) PLAYER); lia.
Qed.

Lemma hard_converts_win_witness :
  checkWinner (fst (set winOrBlock 0 2 AI, true)) = AI.
Proof.
  apply (hard_converts_win (winOrBlock, false)).
  - intros r c Hin. each_cell Hin; simpl; auto.
  - right. split; [reflexivity | ]. split; [reflexivity | ].
    exists 0, 2. split; reflexivity.
  - apply (plays_on _ _ (winOrBlock, false)); [apply plays_here | ].
    apply (ply_ai hardMove winOrBlock (set winOrBlock 0 2 AI));
      [reflexivity | ].
    unfold hardMove. vm_compute. reflexivity.
  - reflexivity.
Defined.

(** ** Counting marks *)







(** ** chooseDifficulty *)

Lemma failedRead_stuck (level : Z) :
  validLevel level = false -> failedRead level = lift OutOfFuel.
Proof. intros H. unfold failedRead. rewrite H. reflexivity. Qed.

Lemma readLevel_first (pre : list Typed) (d : Z) (rest : list Typed) :
  forallb turnedDown pre = true -> 1 <= d <= 3 ->
  forall level,
    readLevel level (pre ++ Num d :: rest)
    = (repeat InvalidChoice (List.length pre), Ok (d, rest, true)).
Proof.
  intros Hpre Hd. induction pre as [ | x pre IH]; intros level.
  - simpl.
    assert (Hfit : (INT_MIN <=? d) && (d <=? INT_MAX) = true).
    { apply andb_true_iff. unfold INT_MIN, INT_MAX.
      split; apply Z.leb_le; lia. }
    assert (Hv : validLevel d = true).
    { unfold validLevel. apply andb_true_iff.
      split; [apply Z.geb_le | apply Z.leb_le]; lia. }
    rewrite Hfit, Hv. reflexivity.
  - simpl in Hpre. apply andb_true_iff in Hpre. destruct Hpre as [Hx Hpre].
    destruct x as [n | ]; [ | discriminate Hx].
    simpl in Hx. apply andb_true_iff in Hx. destruct Hx as [Hfit Hv].
    apply negb_true_iff in Hv.
    cbn [app readLevel]. rewrite Hfit, Hv.
    unfold say, bindOut. rewrite (IH Hpre n). reflexivity.
Qed.

(** After numbers that were turned down, the variable holds a number that
    does not pass the test. *)
Lemma readLevel_stuck (pre : list Typed) (tail : list Typed) :
  forallb turnedDown pre = true ->
  (forall level, validLevel level = false ->
                 snd (readLevel level tail) = OutOfFuel) ->
  forall level, pre <> [] \/ validLevel level = false ->
                snd (readLevel level (pre ++ tail)) = OutOfFuel.
Proof.
  intros Hpre Htail. induction pre as [ | x pre IH]; intros level Hl.
  - destruct Hl as [Hl | Hl]; [congruence | ]. apply Htail. exact Hl.
  - simpl in Hpre. apply andb_true_iff in Hpre. destruct Hpre as [Hx Hpre].
    destruct x as [n | ]; [ | discriminate Hx].
    simpl in Hx. apply andb_true_iff in Hx. destruct Hx as [Hfit Hv].
    apply negb_true_iff in Hv.
    cbn [app readLevel]. rewrite Hfit, Hv.
    unfold say, bindOut.
    specialize (IH Hpre n (or_intror Hv)).
    destruct (readLevel n (pre ++ tail)) as [o [x | | ]];
      simpl in *; congruence.
Qed.

Lemma readLevel_noInt (t : Typed) (rest : list Typed) (level : Z) :
  noInt t = true -> snd (readLevel level (t :: rest)) = OutOfFuel.
Proof.
  intros Ht. destruct t as [n | ]; simpl.
  - simpl in Ht. apply negb_true_iff in Ht. rewrite Ht.
    rewrite failedRead_stuck; [reflexivity | ].
    apply andb_false_iff in Ht. unfold validLevel, INT_MIN, INT_MAX in *.
    destruct Ht as [Ht | Ht].
    + apply Z.leb_gt in Ht.
      replace (n <? -2147483648) with true
        by (symmetry; apply Z.ltb_lt; lia). reflexivity.
    + apply Z.leb_gt in Ht.
      replace (n <? -2147483648) with false
        by (symmetry; apply Z.ltb_ge; lia). reflexivity.
  - reflexivity.
Qed.

Lemma readLevel_range (levels : list Typed) :
  forall level out d rest good,
    readLevel level levels = (out, Ok (d, rest, good)) -> 1 <= d <= 3.
Proof.
  assert (Hv : forall d, validLevel d = true -> 1 <= d <= 3).
  { intros d H. unfold validLevel in H. apply andb_true_iff in H.
    destruct H as [H1 H2]. apply Z.geb_le in H1. apply Z.leb_le in H2. lia. }
  assert (Hf : forall level out d rest good,
             failedRead level = (out, Ok (d, rest, good)) -> 1 <= d <= 3).
  { intros level out d rest good H. unfold failedRead in H.
    destruct (validLevel level) eqn:E; [ | discriminate H].
    inversion H; subst. apply Hv; exact E. }
  induction levels as [ | x levels IH]; intros level out d rest good H;
    [exact (Hf _ _ _ _ _ H) | ].
  destruct x as [n | ]; cbn [readLevel] in H; [ | exact (Hf _ _ _ _ _ H)].
  destruct ((INT_MIN <=? n) && (n <=? INT_MAX)); [ | exact (Hf _ _ _ _ _ H)].
  destruct (validLevel n) eqn:E.
  - inversion H; subst. apply Hv; exact E.
  - unfold say, bindOut in H.
    destruct (readLevel n levels) as [o' [[[d' rest'] good'] | | ]] eqn:R;
      inversion H; subst.
    apply (IH n o' d rest good R).
Qed.

Lemma failedRead_quiet (level : Z) :
  fst (failedRead level) = [] /\ snd (failedRead level) <> Fault.
Proof.
  unfold failedRead. destruct (validLevel level); split;
    try reflexivity; discriminate.
Qed.

Lemma readLevel_no_verdict (levels : list Typed) :
  forall level,
    forallb (fun m => negb (isVerdict m)) (fst (readLevel level levels))
    = true.
Proof.
  assert (Hf : forall level,
             forallb (fun m => negb (isVerdict m)) (fst (failedRead level))
             = true).
  { intros level. rewrite (proj1 (failedRead_quiet level)). reflexivity. }
  induction levels as [ | x levels IH]; intros level; [apply Hf | ].
  destruct x as [n | ]; cbn [readLevel]; [ | apply Hf].
  destruct ((INT_MIN <=? n) && (n <=? INT_MAX)); [ | apply Hf].
  destruct (validLevel n); [reflexivity | ].
  pose proof (IH n) as Hn. unfold say, bindOut.
  destruct (readLevel n levels) as [o' [x | | ]]; simpl in *; exact Hn.
Qed.

Lemma readLevel_no_fault (levels : list Typed) :
  forall level out, readLevel level levels <> (out, Fault).
Proof.
  assert (Hf : forall level out, failedRead level <> (out, Fault)).
  { intros level out H. apply (proj2 (failedRead_quiet level)).
    rewrite H. reflexivity. }
  induction levels as [ | x levels IH]; intros level out H;
    [exact (Hf _ _ H) | ].
  destruct x as [n | ]; cbn [readLevel] in H; [ | exact (Hf _ _ H)].
  destruct ((INT_MIN <=? n) && (n <=? INT_MAX)); [ | exact (Hf _ _ H)].
  destruct (validLevel n); [discriminate H | ].
  unfold say, bindOut in H.
  destruct (readLevel n levels) as [o' [[[d' rest'] good'] | | ]] eqn:R;
    inversion H; subst. exact (IH n o' R).
Qed.

(** X16.  [chooseDifficulty] returns the first number in the input that
    lies between 1 and 3, provided everything before it is a number that
    fits an [int]; it prints one complaint for each of those.  If instead
    something that is no number, or a number that does not fit an [int],
    is met first, it never returns, whatever follows.  If the input ends
    first, it never returns either, unless nothing at all was read and the
    variable, which is not initialised, happens to hold 1, 2 or 3: then
    that content is returned. *)
Theorem chooseDifficulty_first_valid (level : Z) (pre : list Typed) :
  forallb turnedDown pre = true ->
  (forall d rest,
      1 <= d <= 3 ->
      chooseDifficulty level (pre ++ Num d :: rest)
      = (AskDifficulty :: repeat InvalidChoice (List.length pre),
         Ok (d, rest, true))) /\
  (forall t rest,
      noInt t = true ->
      snd (chooseDifficulty level (pre ++ t :: rest)) = OutOfFuel) /\
  (pre <> [] \/ validLevel level = false ->
   snd (chooseDifficulty level pre) = OutOfFuel) /\
  (validLevel level = true ->
   chooseDifficulty level [] = ([AskDifficulty], Ok (level, [], false))).
Proof.
  intros Hpre. unfold chooseDifficulty.
  assert (Hsnd : forall lv, snd (say AskDifficulty ;;; readLevel level lv)
                            = OutOfFuel <->
                            snd (readLevel level lv) = OutOfFuel).
  { intros lv. unfold say, bindOut.
    destruct (readLevel level lv) as [o [x | | ]]; simpl;
      split; congruence. }
  split; [ | split; [ | split]].
  - intros d rest Hd. unfold say, bindOut.
    rewrite (readLevel_first pre d rest Hpre Hd level). reflexivity.
  - intros t rest Ht. apply Hsnd.
    destruct pre as [ | p pre].
    + apply readLevel_noInt; exact Ht.
    + apply (readLevel_stuck (p :: pre) (t :: rest) Hpre).
      * intros lv _. apply readLevel_noInt; exact Ht.
      * left; discriminate.
  - intros Hl. apply Hsnd.
    rewrite <- (app_nil_r pre).
    apply (readLevel_stuck pre [] Hpre); [ | exact Hl].
    intros lv Hv. simpl. rewrite (failedRead_stuck lv Hv). reflexivity.
  - intros Hv. unfold say, bindOut. simpl. unfold failedRead.
    rewrite Hv. reflexivity.
Qed.

Lemma chooseDifficulty_first_valid_witness :
  chooseDifficulty 0 ([Num 0; Num 7] ++ Num 2 :: [Num 3])
  = (AskDifficulty :: repeat InvalidChoice (List.length [Num 0; Num 7]),
     Ok (2, [Num 3], true)) /\
  snd (chooseDifficulty 0 ([Num 0; Num 7] ++ Num 99999999999 :: [Num 2]))
  = OutOfFuel /\
  snd (chooseDifficulty 0 [Num 0; Num 7]) = OutOfFuel /\
  chooseDifficulty 2 [] = ([AskDifficulty], Ok (2, [], false)).
Proof.
  destruct (chooseDifficulty_first_valid 0 [Num 0; Num 7] eq_refl)
    as [H1 [H2 [H3 _]]].
  destruct (chooseDifficulty_first_valid 2 [] eq_refl) as [_ [_ [_ H4]]].
  split; [apply H1; lia | ].
  split; [apply H2; reflexivity | ].
  split; [apply H3; left; discriminate | apply H4; reflexivity].
Defined.

(** ** playerMove *)

Lemma readMove_token (b : Board) (c0 c1 : ascii) (rest : list string) :
  readMove b (token c0 c1 :: rest) =
  let '(row, col) := cellOf c0 c1 in
  if (row <? 0) || (row >=? SIZE) || (col <? 0) || (col >=? SIZE)
  then say InvalidCell ;;; readMove b rest
  else if negb (Ascii.eqb (get b row col) BLANK)
       then say CellTaken ;;; readMove b rest
       else ret (set b row col PLAYER, rest).
Proof. reflexivity. Qed.

(** X17.  Cell names.  For a blank cell of row letter [A]-[C] and column
    digit [1]-[3], [playerMove] accepts the letter in either case followed
    by the digit, and the digit followed by the capital letter, and marks
    that cell.  The digit followed by the small letter is turned down as an
    invalid cell: only the first character is put in upper case. *)
Theorem cell_names (b : Board) (r c : Z) (rest : list string) :
  inBounds r c = true -> get b r c = BLANK ->
  readMove b (token (upperRow r) (digitCol c) :: rest)
  = ret (set b r c PLAYER, rest) /\
  readMove b (token (lowerRow r) (digitCol c) :: rest)
  = ret (set b r c PLAYER, rest) /\
  readMove b (token (digitCol c) (upperRow r) :: rest)
  = ret (set b r c PLAYER, rest) /\
  readMove b (token (digitCol c) (lowerRow r) :: rest)
  = (say InvalidCell ;;; readMove b rest).
Proof.
  intros Hin Hb. rewrite !readMove_token.
  each_cell Hin;
    repeat match goal with
           | |- context [cellOf ?a ?b] =>
             let v := eval vm_compute in (cellOf a b) in
             change (cellOf a b) with v
           end;
    simpl in Hb |- *; rewrite Hb; repeat split; reflexivity.
Qed.

Lemma cell_names_witness :
  readMove emptyBoard (token (upperRow 1) (digitCol 2) :: [])
  = ret (set emptyBoard 1 2 PLAYER, []) /\
  readMove emptyBoard (token (lowerRow 1) (digitCol 2) :: [])
  = ret (set emptyBoard 1 2 PLAYER, []) /\
  readMove emptyBoard (token (digitCol 2) (upperRow 1) :: [])
  = ret (set emptyBoard 1 2 PLAYER, []) /\
  readMove emptyBoard (token (digitCol 2) (lowerRow 1) :: [])
  = (say InvalidCell ;;; readMove emptyBoard []).
Proof. apply (cell_names emptyBoard 1 2 []); reflexivity. Defined.

Lemma readMove_legal (b : Board) (moves : list string) :
  forall out b' rest,
    readMove b moves = (out, Ok (b', rest)) ->
    (exists r c, inBounds r c = true /\ get b r c = BLANK /\
                 b' = set b r c PLAYER) /\
    forallb isRejection out = true /\
    List.length moves = S (List.length out + List.length rest).
Proof.
  induction moves as [ | move moves IH]; intros out b' rest H;
    [discriminate H | ].
  assert (Hretry : forall m, isRejection m = true ->
            (say m ;;; readMove b moves) = (out, Ok (b', rest)) ->
            (exists r c, inBounds r c = true /\ get b r c = BLANK /\
                         b' = set b r c PLAYER) /\
            forallb isRejection out = true /\
            List.length (move :: moves)
            = S (List.length out + List.length rest)).
  { intros m Hm E. unfold say, bindOut in E.
    destruct (readMove b moves) as [o' [[b1 rest1] | | ]] eqn:R;
      inversion E; subst.
    destruct (IH o' b' rest eq_refl) as [H1 [H2 H3]].
    split; [exact H1 | ]. split.
    - simpl. rewrite Hm, H2. reflexivity.
    - simpl. rewrite H3. reflexivity. }
  destruct move as [ | c0 [ | c1 [ | c2 move]]];
    try (apply (Hretry InvalidFormat eq_refl); exact H).
  change (String c0 (String c1 EmptyString)) with (token c0 c1) in H.
  rewrite readMove_token in H.
  destruct (cellOf c0 c1) as [row col].
  destruct ((row <? 0) || (row >=? SIZE) || (col <? 0) || (col >=? SIZE))
    eqn:Hrange; [apply (Hretry InvalidCell eq_refl); exact H | ].
  destruct (Ascii.eqb (get b row col) BLANK) eqn:Hb; simpl in H;
    [ | apply (Hretry CellTaken eq_refl); exact H].
  inversion H; subst. apply Ascii.eqb_eq in Hb. split.
  - exists row, col. split; [ | split; [exact Hb | reflexivity]].
    eapply get_blank_inBounds; exact Hb.
  - split; reflexivity.
Qed.

(** X18.  A move that [playerMove] accepts is legal: the human's mark goes
    on a cell inside the board that was blank, and nothing else changes.
    Before it, the prompt is printed once and every token turned down is
    answered by exactly one of the three complaints. *)
Theorem playerMove_legal (b b' : Board) (moves rest : list string)
        (out : list Msg) :
  playerMove b moves = (out, Ok (b', rest)) ->
  (exists r c, inBounds r c = true /\ get b r c = BLANK /\
               b' = set b r c PLAYER) /\
  (exists complaints,
      out = YourMove :: complaints /\
      forallb isRejection complaints = true /\
      List.length moves
      = S (List.length complaints + List.length rest)).
Proof.
  unfold playerMove, say, bindOut. intros H.
  destruct (readMove b moves) as [o' [[b1 rest1] | | ]] eqn:R;
    inversion H; subst.
  destruct (readMove_legal b moves o' b' rest R) as [H1 [H2 H3]].
  split; [exact H1 | ]. exists o'. auto.
Qed.

Lemma playerMove_legal_witness :
  (exists r c, inBounds r c = true /\ get winOrBlock r c = BLANK /\
               set winOrBlock 1 2 PLAYER = set winOrBlock r c PLAYER) /\
  (exists complaints,
      [YourMove; CellTaken] = YourMove :: complaints /\
      forallb isRejection complaints = true /\
      List.length ["a1"; "b3"; "c1"]%string
      = S (List.length complaints + List.length ["c1"%string])).
Proof.
  apply (playerMove_legal winOrBlock (set winOrBlock 1 2 PLAYER)
                          ["a1"; "b3"; "c1"]%string ["c1"%string]
                          [YourMove; CellTaken]).
  reflexivity.
Defined.

Lemma readMove_no_fault (b : Board) (mv : list string) :
  forall out, readMove b mv <> (out, Fault).
Proof.
  induction mv as [ | move mv IH]; intros out H; [discriminate H | ].
  assert (Hretry : forall m, (say m ;;; readMove b mv) <> (out, Fault)).
  { intros m E. unfold say, bindOut in E.
    destruct (readMove b mv) as [o' [[b1 rest1] | | ]] eqn:R;
      inversion E; subst. exact (IH o' eq_refl). }
  destruct move as [ | c0 [ | c1 [ | c2 move]]];
    try (exact (Hretry InvalidFormat H)).
  change (String c0 (String c1 EmptyString)) with (token c0 c1) in H.
  rewrite readMove_token in H.
  destruct (cellOf c0 c1) as [row col].
  destruct ((row <? 0) || (row >=? SIZE) || (col <? 0) || (col >=? SIZE));
    [exact (Hretry InvalidCell H) | ].
  destruct (negb (Ascii.eqb (get b row col) BLANK));
    [exact (Hretry CellTaken H) | discriminate H].
Qed.

Lemma playerMove_no_fault (b : Board) (mv : list string) (out : list Msg) :
  playerMove b mv <> (out, Fault).
Proof.
  intros H. unfold playerMove, say, bindOut in H.
  destruct (readMove b mv) as [o' [[b1 rest1] | | ]] eqn:R;
    inversion H; subst. exact (readMove_no_fault b mv o' R).
Qed.

(** X19.  On a board without a blank cell [playerMove] turns down every
    token, whatever is typed, and so never returns. *)
Theorem playerMove_full (b : Board) (moves : list string) :
  emptyCount b = 0%nat ->
  exists out, playerMove b moves = (out, OutOfFuel).
Proof.
  intros Hz.
  assert (Hfull : forall mv, exists out, readMove b mv = (out, OutOfFuel)).
  { induction mv as [ | move mv IH]; [exists []; reflexivity | ].
    destruct IH as [o IH].
    assert (Hretry : forall m, exists out,
              (say m ;;; readMove b mv) = (out, OutOfFuel)).
    { intros m. unfold say, bindOut. rewrite IH. eexists. reflexivity. }
    destruct move as [ | c0 [ | c1 [ | c2 move]]];
      try (exact (Hretry InvalidFormat)).
    change (String c0 (String c1 EmptyString)) with (token c0 c1).
    rewrite readMove_token.
    destruct (cellOf c0 c1) as [row col].
    destruct ((row <? 0) || (row >=? SIZE) || (col <? 0) || (col >=? SIZE));
      [exact (Hretry InvalidCell) | ].
    rewrite (full_no_blank b row col Hz). exact (Hretry CellTaken). }
  destruct (Hfull moves) as [o Ho]. unfold playerMove, say, bindOut.
  rewrite Ho. eexists. reflexivity.
Qed.

Lemma playerMove_full_witness :
  exists out, playerMove fullDrawn ["a1"; "b2"]%string = (out, OutOfFuel).
Proof.
  apply (playerMove_full fullDrawn ["a1"; "b2"]%string). reflexivity.
Defined.

(** ** The console monad *)

Lemma bindOut_inv {A B : Type} (x : Out A) (k : A -> Out B)
      (out : list Msg) (r : result B) :
  bindOut x k = (out, r) ->
  (exists o1 a o2, x = (o1, Ok a) /\ k a = (o2, r) /\ out = o1 ++ o2) \/
  (x = (out, Fault) /\ r = Fault) \/
  (x = (out, OutOfFuel) /\ r = OutOfFuel).
Proof.
  unfold bindOut. destruct x as [o1 [a | | ]].
  - destruct (k a) as [o2 r2] eqn:E. intros H. inversion H; subst.
    left. exists o1, a, o2. auto.
  - intros H. inversion H; subst. right; left; auto.
  - intros H. inversion H; subst. right; right; auto.
Qed.

Lemma fst_bindOut {A B : Type} (x : Out A) (k : A -> Out B) :
  fst (bindOut x k) =
  fst x ++ match snd x with
           | Ok a => fst (k a)
           | _ => []
           end.
Proof.
  unfold bindOut. destruct x as [o1 [a | | ]]; simpl.
  - destruct (k a); reflexivity.
  - rewrite app_nil_r; reflexivity.
  - rewrite app_nil_r; reflexivity.
Qed.

(** ** The loop of playGame *)

Lemma readMove_no_verdict (b : Board) (mv : list string) :
  forallb (fun m => negb (isVerdict m)) (fst (readMove b mv)) = true.
Proof.
  induction mv as [ | move mv IH]; [reflexivity | ].
  assert (Hretry : forall m, isVerdict m = false ->
            forallb (fun m => negb (isVerdict m))
                    (fst (say m ;;; readMove b mv)) = true).
  { intros m Hm. rewrite fst_bindOut. simpl. rewrite Hm. exact IH. }
  destruct move as [ | c0 [ | c1 [ | c2 move]]];
    try (exact (Hretry InvalidFormat eq_refl)).
  change (String c0 (String c1 EmptyString)) with (token c0 c1).
  rewrite readMove_token. destruct (cellOf c0 c1) as [row col].
  destruct ((row <? 0) || (row >=? SIZE) || (col <? 0) || (col >=? SIZE));
    [exact (Hretry InvalidCell eq_refl) | ].
  destruct (negb (Ascii.eqb (get b row col) BLANK));
    [exact (Hretry CellTaken eq_refl) | reflexivity].
Qed.

Lemma turn_no_verdict (b : Board) (pf : bool) (d : Z) (mv : list string)
      (dr : list nat) :
  forallb (fun m => negb (isVerdict m)) (fst (turn b pf d mv dr)) = true.
Proof.
  unfold turn. destruct pf.
  - rewrite fst_bindOut. rewrite forallb_app. apply andb_true_iff. split.
    + unfold playerMove. rewrite fst_bindOut. simpl.
      apply readMove_no_verdict.
    + destruct (snd (playerMove b mv)) as [[b1 mv1] | | ]; reflexivity.
  - rewrite fst_bindOut. simpl.
    destruct (makeAIMove b d dr) as [[b1 dr1] | | ]; reflexivity.
Qed.

Lemma gameLoop_S (fuel : nat) (b : Board) (pf : bool) (d : Z)
      (mv : list string) (dr : list nat) :
  gameLoop (S fuel) b pf d mv dr =
  ('(b1, mv1, dr1) <- turn b pf d mv dr ;;
   say (BoardText (printBoard b1)) ;;;
   let winner := checkWinner b1 in
   if negb (Ascii.eqb winner BLANK) || isDraw b1 then ret (winner, b1)
   else gameLoop fuel b1 (negb pf) d mv1 dr1).
Proof. reflexivity. Qed.

Lemma gameLoop_no_verdict (fuel : nat) :
  forall b pf d mv dr,
    forallb (fun m => negb (isVerdict m))
            (fst (gameLoop fuel b pf d mv dr)) = true.
Proof.
  induction fuel as [ | fuel IH]; intros b pf d mv dr; [reflexivity | ].
  rewrite gameLoop_S, fst_bindOut, forallb_app.
  apply andb_true_iff. split; [apply turn_no_verdict | ].
  destruct (snd (turn b pf d mv dr)) as [[[b1 mv1] dr1] | | ];
    try reflexivity.
  rewrite fst_bindOut. simpl.
  destruct (negb (Ascii.eqb (checkWinner b1) BLANK) || isDraw b1);
    [reflexivity | apply IH].
Qed.

Lemma playerMove_ok (b b' : Board) (moves rest : list string)
      (out : list Msg) :
  playerMove b moves = (out, Ok (b', rest)) ->
  exists r c, inBounds r c = true /\ get b r c = BLANK /\
              b' = set b r c PLAYER.
Proof.
  unfold playerMove, say, bindOut. intros H.
  destruct (readMove b moves) as [o' [[b1 rest1] | | ]] eqn:R;
    inversion H; subst.
  apply (readMove_legal b moves o' b' rest R).
Qed.

Lemma makeAIMove_ok (b b' : Board) (d : Z) (draws rest : list nat) :
  makeAIMove b d draws = Ok (b', rest) -> 1 <= d <= 3 ->
  exists r c, inBounds r c = true /\ get b r c = BLANK /\
              b' = set b r c AI.
Proof.
  intros H Hd.
  assert (Hc : d = 1 \/ d = 2 \/ d = 3) by lia.
  destruct Hc as [-> | [-> | ->]]; simpl in H.
  - apply (makeEasyAIMove_places draws (S (List.length draws)) b b' rest
             (Nat.lt_succ_diag_r _) H).
  - apply (makeMediumAIMove_legal b b' draws rest H).
  - destruct (makeHardAIMove b) as [b1 | | ] eqn:E; try discriminate H.
    inversion H; subst. apply makeHardAIMove_legal; exact E.
Qed.

(** What a completed turn did. *)
Lemma turn_Ok (b : Board) (pf : bool) (d : Z) (mv : list string)
      (dr : list nat) (o : list Msg) (b1 : Board) (mv1 : list string)
      (dr1 : list nat) :
  turn b pf d mv dr = (o, Ok (b1, mv1, dr1)) ->
  if pf
  then playerMove b mv = (o, Ok (b1, mv1)) /\ dr1 = dr
  else makeAIMove b d dr = Ok (b1, dr1) /\ mv1 = mv.
Proof.
  unfold turn. destruct pf; intros H.
  - apply bindOut_inv in H.
    destruct H as [[o1 [[b2 mv2] [o2 [Hx [Hk Ho]]]]] | [[_ H] | [_ H]]];
      try discriminate H.
    unfold ret in Hk. inversion Hk; subst. rewrite app_nil_r. auto.
  - unfold say, lift, bindOut in H.
    destruct (makeAIMove b d dr) as [[b2 dr2] | | ]; inversion H; subst.
    auto.
Qed.

Lemma turn_ply (b : Board) (pf : bool) (d : Z) (mv : list string)
      (dr : list nat) (o : list Msg) (b1 : Board) (mv1 : list string)
      (dr1 : list nat) :
  1 <= d <= 3 -> gameOver b = false ->
  turn b pf d mv dr = (o, Ok (b1, mv1, dr1)) ->
  ply anyMove (b, pf) (b1, negb pf) /\
  (d = 3 -> ply hardMove (b, pf) (b1, negb pf)).
Proof.
  intros Hd Hgo H. apply turn_Ok in H. destruct pf.
  - destruct H as [H _].
    destruct (playerMove_ok b b1 mv mv1 o H) as [r [c [Hin [Hb ->]]]].
    split; [ | intros _]; apply ply_player; assumption.
  - destruct H as [H _]. split.
    + apply ply_ai; [exact Hgo | ].
      destruct (makeAIMove_ok b b1 d dr dr1 H Hd) as [r [c Hrc]].
      exists r, c. exact Hrc.
    + intros ->. apply ply_ai; [exact Hgo | ]. simpl in H.
      unfold hardMove.
      destruct (makeHardAIMove b) as [b2 | | ]; inversion H; subst.
      reflexivity.
Qed.

Lemma plays_one (aiMove : Board -> Board -> Prop) (s t : Board * bool) :
  ply aiMove s t -> plays aiMove s t.
Proof. intros H. eapply plays_on; [apply plays_here | exact H]. Qed.

(** The loop, when it ends, has played a match by the rules from the
    position it started on, and stops on a position where the game is
    over; [winner] is the answer of [checkWinner] there. *)
Lemma gameLoop_Ok (fuel : nat) :
  forall b pf d mv dr out w b',
    1 <= d <= 3 -> gameOver b = false ->
    gameLoop fuel b pf d mv dr = (out, Ok (w, b')) ->
    exists pf',
      plays anyMove (b, pf) (b', pf') /\
      (d = 3 -> plays hardMove (b, pf) (b', pf')) /\
      gameOver b' = true /\ w = checkWinner b'.
Proof.
  induction fuel as [ | fuel IH]; intros b pf d mv dr out w b' Hd Hgo H;
    [discriminate H | ].
  rewrite gameLoop_S in H. apply bindOut_inv in H.
  destruct H as [[o1 [[[b1 mv1] dr1] [o2 [Ht [Hk Ho]]]]] | [[_ H] | [_ H]]];
    try discriminate H.
  destruct (turn_ply b pf d mv dr o1 b1 mv1 dr1 Hd Hgo Ht) as [Hany Hhard].
  apply bindOut_inv in Hk.
  destruct Hk as [[o3 [[] [o4 [_ [Hk _]]]]] | [[Hk _] | [Hk _]]];
    try discriminate Hk.
  cbv zeta in Hk.
  destruct (negb (Ascii.eqb (checkWinner b1) BLANK) || isDraw b1) eqn:Hgo1.
  - inversion Hk; subst. exists (negb pf).
    split; [apply plays_one; exact Hany | ].
    split; [intros E; apply plays_one; apply Hhard; exact E | ].
    split; [exact Hgo1 | reflexivity].
  - destruct (IH b1 (negb pf) d mv1 dr1 o4 w b' Hd Hgo1 Hk)
      as [pf' [Hp [Hph [Hend Hw]]]].
    exists pf'. split; [ | split; [ | split; assumption]].
    + eapply plays_trans; [apply plays_one; exact Hany | exact Hp].
    + intros E. eapply plays_trans;
        [apply plays_one; apply Hhard; exact E | apply Hph; exact E].
Qed.

Lemma turn_no_fault (b : Board) (pf : bool) (d : Z) (mv : list string)
      (dr : list nat) (out : list Msg) :
  isDraw b = false -> turn b pf d mv dr <> (out, Fault).
Proof.
  intros Hd H. unfold turn in H. destruct pf.
  - apply bindOut_inv in H.
    destruct H as [[o1 [[b2 mv2] [o2 [_ [Hk _]]]]] | [[H _] | [_ H]]];
      try discriminate.
    exact (playerMove_no_fault b mv out H).
  - unfold say, lift, bindOut in H.
    destruct (makeAIMove b d dr) as [[b2 dr2] | | ] eqn:E;
      try discriminate H.
    apply makeAIMove_Fault_iff in E. destruct E as [_ Hz].
    apply isDraw_emptyCount in Hz. congruence.
Qed.

Lemma gameLoop_no_fault (fuel : nat) :
  forall b pf d mv dr out,
    isDraw b = false -> gameLoop fuel b pf d mv dr <> (out, Fault).
Proof.
  induction fuel as [ | fuel IH]; intros b pf d mv dr out Hd H;
    [discriminate H | ].
  rewrite gameLoop_S in H. apply bindOut_inv in H.
  destruct H as [[o1 [[[b1 mv1] dr1] [o2 [Ht [Hk Ho]]]]] | [[H _] | [_ H]]];
    try discriminate H.
  - apply bindOut_inv in Hk.
    destruct Hk as [[o3 [[] [o4 [_ [Hk _]]]]] | [[Hk _] | [Hk _]]];
      try discriminate Hk.
    cbv zeta in Hk.
    destruct (negb (Ascii.eqb (checkWinner b1) BLANK) || isDraw b1) eqn:Hgo1;
      [discriminate Hk | ].
    apply orb_false_iff in Hgo1. destruct Hgo1 as [_ Hd1].
    exact (IH b1 (negb pf) d mv1 dr1 o4 Hd1 Hk).
  - exact (turn_no_fault b pf d mv dr out Hd H).
Qed.

Lemma turn_fills (b : Board) (pf : bool) (d : Z) (mv : list string)
      (dr : list nat) (o : list Msg) (b1 : Board) (mv1 : list string)
      (dr1 : list nat) :
  1 <= d <= 3 ->
  turn b pf d mv dr = (o, Ok (b1, mv1, dr1)) ->
  emptyCount b = S (emptyCount b1).
Proof.
  intros Hd H. apply turn_Ok in H. destruct pf.
  - destruct H as [H _].
    destruct (playerMove_ok b b1 mv mv1 o H) as [r [c [_ [Hb ->]]]].
    apply emptyCount_set; [exact Hb | exact PLAYER_not_blank].
  - destruct H as [H _].
    destruct (makeAIMove_ok b b1 d dr dr1 H Hd) as [r [c [_ [Hb ->]]]].
    apply emptyCount_set; [exact Hb | exact AI_not_blank].
Qed.

(** Iterations beyond the number of blank cells are never run. *)
Lemma gameLoop_fuel (n : nat) :
  forall n' b pf d mv dr,
    1 <= d <= 3 -> (0 < emptyCount b <= n)%nat -> (n <= n')%nat ->
    gameLoop n' b pf d mv dr = gameLoop n b pf d mv dr.
Proof.
  induction n as [ | n IH]; intros n' b pf d mv dr Hd Hcount Hle; [lia | ].
  destruct n' as [ | n']; [lia | ].
  rewrite !gameLoop_S.
  destruct (turn b pf d mv dr) as [o1 [[[b1 mv1] dr1] | | ]] eqn:Ht;
    try reflexivity.
  pose proof (turn_fills b pf d mv dr o1 b1 mv1 dr1 Hd Ht) as Hfill.
  unfold bindOut at 1 3. f_equal.
  unfold say, bindOut. cbv zeta.
  destruct (negb (Ascii.eqb (checkWinner b1) BLANK) || isDraw b1) eqn:Hgo1;
    [reflexivity | ].
  apply orb_false_iff in Hgo1. destruct Hgo1 as [_ Hd1].
  rewrite (IH n' b1 (negb pf) d mv1 dr1 Hd); [reflexivity | | lia].
  split; [ | lia].
  destruct (emptyCount b1) eqn:E; [ | lia].
  apply isDraw_emptyCount in E. congruence.
Qed.

(** ** playGame *)

Lemma playGameFuel_eq (fuel : nat) (inp : Input) :
  playGameFuel fuel inp =
  match chooseDifficulty (level0 inp) (levels inp) with
  | (o1, Ok (d, _, good)) =>
    match gameLoop fuel emptyBoard
                   (Ascii.eqb (choice inp) "y" || Ascii.eqb (choice inp) "Y")
                   d (if good then moves inp else []) (draws inp) with
    | (o2, Ok (w, b)) =>
      (AskFirst :: o1 ++ BoardText (printBoard emptyBoard) :: o2
                ++ [announce w], Ok b)
    | (o2, Fault) =>
      (AskFirst :: o1 ++ BoardText (printBoard emptyBoard) :: o2, Fault)
    | (o2, OutOfFuel) =>
      (AskFirst :: o1 ++ BoardText (printBoard emptyBoard) :: o2, OutOfFuel)
    end
  | (o1, Fault) => (AskFirst :: o1, Fault)
  | (o1, OutOfFuel) => (AskFirst :: o1, OutOfFuel)
  end.
Proof.
  unfold playGameFuel, isPlayerFirst, say, ret, bindOut.
  destruct (chooseDifficulty (level0 inp) (levels inp))
    as [o1 [[[d rest] good] | | ]]; [ | reflexivity | reflexivity].
  destruct (gameLoop fuel emptyBoard _ d (if good then moves inp else [])
                     (draws inp))
    as [o2 [[w b] | | ]]; cbn [app]; rewrite ?app_nil_r; reflexivity.
Qed.

Lemma chooseDifficulty_range (level : Z) (levels : list Typed)
      (o : list Msg) (d : Z) (rest : list Typed) (good : bool) :
  chooseDifficulty level levels = (o, Ok (d, rest, good)) -> 1 <= d <= 3.
Proof.
  unfold chooseDifficulty, say, bindOut. intros H.
  destruct (readLevel level levels) as [o' [[[d' rest'] good'] | | ]] eqn:R;
    inversion H; subst.
  apply (readLevel_range levels level o' d rest good R).
Qed.

Lemma chooseDifficulty_no_verdict (level : Z) (levels : list Typed) :
  forallb (fun m => negb (isVerdict m))
          (fst (chooseDifficulty level levels)) = true.
Proof.
  unfold chooseDifficulty. rewrite fst_bindOut. simpl.
  apply readLevel_no_verdict.
Qed.

Lemma gameOver_empty : gameOver emptyBoard = false.
Proof. reflexivity. Qed.

(** X20.  A run of [playGame] that comes to its end has played a match by
    the rules: the last board is a position of alternating legal play from
    the empty board, the game is over on it, and the run closes with the
    one verdict that fits [checkWinner] on that board, after no other
    verdict. *)
Theorem playGame_by_the_rules (inp : Input) (out : list Msg) (b : Board) :
  playGame inp = (out, Ok b) ->
  gameOver b = true /\
  (exists playerToMove, reachable anyMove (b, playerToMove)) /\
  exists before,
    out = before ++ [announce (checkWinner b)] /\
    forallb (fun m => negb (isVerdict m)) before = true.
Proof.
  unfold playGame. rewrite playGameFuel_eq. intros H.
  destruct (chooseDifficulty (level0 inp) (levels inp))
    as [o1 [[[d rest] good] | | ]] eqn:Hc; try discriminate H.
  pose proof (chooseDifficulty_range _ _ _ _ _ _ Hc) as Hd.
  pose proof (chooseDifficulty_no_verdict (level0 inp) (levels inp)) as Hq1.
  rewrite Hc in Hq1. simpl in Hq1.
  set (pf := Ascii.eqb (choice inp) "y" || Ascii.eqb (choice inp) "Y") in *.
  set (mv := if good then moves inp else []) in *.
  pose proof (gameLoop_no_verdict 9 emptyBoard pf d mv (draws inp)) as Hq2.
  destruct (gameLoop 9 emptyBoard pf d mv (draws inp))
    as [o2 [[w b'] | | ]] eqn:Hl; try discriminate H.
  inversion H; subst. simpl in Hq2.
  destruct (gameLoop_Ok 9 emptyBoard pf d mv (draws inp) o2 w b
                        Hd gameOver_empty Hl)
    as [pf' [Hp [_ [Hgo Hw]]]].
  split; [exact Hgo | ]. split; [exists pf', pf; exact Hp | ].
  exists (AskFirst :: o1 ++ BoardText (printBoard emptyBoard) :: o2).
  split.
  - subst w. simpl. rewrite <- app_assoc. reflexivity.
  - simpl. rewrite forallb_app. simpl. rewrite Hq1, Hq2. reflexivity.
Qed.

Lemma playGame_by_the_rules_witness :
  exists out b,
    playGame (mkInput "y" 0 [Num 3] ["a1"; "a2"; "b1"]%string [])
    = (out, Ok b) /\
    gameOver b = true /\
    (exists playerToMove, reachable anyMove (b, playerToMove)) /\
    exists before,
      out = before ++ [announce (checkWinner b)] /\
      forallb (fun m => negb (isVerdict m)) before = true.
Proof.
  set (inp := mkInput "y" 0 [Num 3] ["a1"; "a2"; "b1"]%string []).
  set (last := mkBoard (mkRow PLAYER PLAYER AI) (mkRow PLAYER AI BLANK)
                       (mkRow AI BLANK BLANK)).
  assert (Hs : snd (playGame inp) = Ok last) by (vm_compute; reflexivity).
  assert (E : playGame inp = (fst (playGame inp), Ok last))
    by (rewrite <- Hs; apply surjective_pairing).
  exists (fst (playGame inp)), last.
  split; [exact E | exact (playGame_by_the_rules inp _ last E)].
Defined.

(** X21.  Nine iterations are all the loop of [playGame] ever runs: with
    any larger bound on the iterations the run is the same. *)
Theorem playGame_nine_turns (fuel : nat) (inp : Input) :
  (9 <= fuel)%nat -> playGameFuel fuel inp = playGame inp.
Proof.
  intros Hle. unfold playGame. rewrite !playGameFuel_eq.
  destruct (chooseDifficulty (level0 inp) (levels inp))
    as [o1 [[[d rest] good] | | ]] eqn:Hc; try reflexivity.
  pose proof (chooseDifficulty_range _ _ _ _ _ _ Hc) as Hd.
  rewrite (gameLoop_fuel 9 fuel emptyBoard _ d
                         (if good then moves inp else []) (draws inp) Hd);
    [reflexivity | | exact Hle].
  change (emptyCount emptyBoard) with 9%nat. lia.
Qed.

Lemma playGame_nine_turns_witness :
  playGameFuel 12 (mkInput "y" 0 [Num 3] ["a1"; "a2"; "b1"]%string [])
  = playGame (mkInput "y" 0 [Num 3] ["a1"; "a2"; "b1"]%string []).
Proof. apply playGame_nine_turns. lia. Defined.

(** X22.  [playGame] never writes outside the array, whatever is typed and
    whatever [rand()] returns. *)
Theorem playGame_no_fault (fuel : nat) (inp : Input) (out : list Msg) :
  playGameFuel fuel inp <> (out, Fault).
Proof.
  rewrite playGameFuel_eq. intros H.
  destruct (chooseDifficulty (level0 inp) (levels inp))
    as [o1 [[[d rest] good] | | ]] eqn:Hc; try discriminate H.
  - destruct (gameLoop fuel emptyBoard
                (Ascii.eqb (choice inp) "y" || Ascii.eqb (choice inp) "Y")
                d (if good then moves inp else []) (draws inp))
      as [o2 [[w b'] | | ]] eqn:Hl; try discriminate H.
    exact (gameLoop_no_fault fuel emptyBoard _ d _ (draws inp) o2
                             eq_refl Hl).
  - unfold chooseDifficulty, say, bindOut in Hc.
    destruct (readLevel (level0 inp) (levels inp))
      as [o' [[[d' rest'] good'] | | ]] eqn:R; inversion Hc; subst.
    exact (readLevel_no_fault (levels inp) (level0 inp) o' R).
Qed.

Lemma playGame_no_fault_witness :
  playGameFuel 9 (mkInput "y" 0 [Num 3] ["b2"; "zz"]%string [])
  <> ([], Fault) /\
  snd (playGameFuel 9 (mkInput "y" 0 [Num 3] ["b2"; "zz"]%string []))
  = OutOfFuel.
Proof.
  split; [apply playGame_no_fault | vm_compute; reflexivity].
Defined.

Lemma no_verdict_no_YouWin (l : list Msg) :
  forallb (fun m => negb (isVerdict m)) l = true -> ~ In YouWin l.
Proof.
  intros H Hin. rewrite forallb_forall in H. specialize (H _ Hin).
  discriminate H.
Qed.

Lemma hard_quiet (fuel : nat) (inp : Input) (rest : list Typed)
      (good : bool) :
  snd (chooseDifficulty (level0 inp) (levels inp)) = Ok (3, rest, good) ->
  ~ In YouWin (fst (playGameFuel fuel inp)).
Proof.
  rewrite playGameFuel_eq. intros Hc.
  pose proof (chooseDifficulty_no_verdict (level0 inp) (levels inp)) as Hq1.
  destruct (chooseDifficulty (level0 inp) (levels inp)) as [o1 r].
  simpl in Hc, Hq1. subst r.
  set (pf := Ascii.eqb (choice inp) "y" || Ascii.eqb (choice inp) "Y").
  set (mv := if good then moves inp else []).
  pose proof (gameLoop_no_verdict fuel emptyBoard pf 3 mv (draws inp))
    as Hq2.
  assert (Hmid : ~ In YouWin
                   (AskFirst :: o1 ++ BoardText (printBoard emptyBoard)
                             :: fst (gameLoop fuel emptyBoard pf 3 mv
                                              (draws inp)))).
  { apply no_verdict_no_YouWin. cbn [forallb isVerdict negb andb].
    rewrite forallb_app. cbn [forallb isVerdict negb andb].
    rewrite Hq1, Hq2. reflexivity. }
  destruct (gameLoop fuel emptyBoard pf 3 mv (draws inp))
    as [o2 [[w b'] | | ]] eqn:Hl; cbn [fst] in *; try exact Hmid.
  assert (Hd : 1 <= 3 <= 3) by lia.
  destruct (gameLoop_Ok fuel emptyBoard pf 3 mv (draws inp) o2 w b'
                        Hd gameOver_empty Hl)
    as [pf' [_ [Hp [_ Hw]]]].
  assert (Hnl : checkWinner b' <> PLAYER).
  { apply (hard_match_not_lost (b', pf')). exists pf. apply Hp. reflexivity. }
  intros [Hc | Hin]; [discriminate Hc | ].
  apply in_app_or in Hin. destruct Hin as [Hin | Hin].
  - apply Hmid. right. apply in_or_app. left; exact Hin.
  - destruct Hin as [Hin | Hin].
    + apply Hmid. right. apply in_or_app. right. left. exact Hin.
    + apply in_app_or in Hin. destruct Hin as [Hin | Hin].
      * apply Hmid. right. apply in_or_app. right. right. exact Hin.
      * destruct Hin as [Hin | []]. unfold announce in Hin. subst w.
        apply Ascii.eqb_neq in Hnl. rewrite Hnl in Hin.
        destruct (Ascii.eqb (checkWinner b') AI); discriminate Hin.
Qed.

(** X23.  With difficulty 3 chosen, no run of [playGame] ever prints
    "You win!". *)
Theorem hard_never_says_you_win (inp : Input) (rest : list Typed)
        (good : bool) :
  snd (chooseDifficulty (level0 inp) (levels inp)) = Ok (3, rest, good) ->
  ~ In YouWin (fst (playGame inp)).
Proof. apply hard_quiet. Qed.

Lemma hard_never_says_you_win_witness :
  snd (chooseDifficulty 0 [Num 3]) = Ok (3, [], true) /\
  ~ In YouWin
      (fst (playGame (mkInput "y" 0 [Num 3] ["b2"; "a1"; "zz"]%string []))).
Proof.
  split; [reflexivity | ].
  apply (hard_never_says_you_win
           (mkInput "y" 0 [Num 3] ["b2"; "a1"; "zz"]%string []) [] true).
  reflexivity.
Defined.

(** ** printBoard *)

(** X24.  The picture [printBoard] draws shows the whole board: two boards
    with the same picture are the same board. *)
Theorem printBoard_injective (b b' : Board) :
  printBoard b = printBoard b' -> b = b'.
Proof.
  open_board b. open_board b'. intros H. cbv in H.
  inversion H. reflexivity.
Qed.

Lemma printBoard_injective_witness :
  set (set winOrBlock 2 2 AI) 2 2 BLANK = winOrBlock.
Proof. apply printBoard_injective. reflexivity. Defined.
